(** * The storage core of the DevOps To-Do app

    A shallow embedding of the two storage backends of the application:
    the [RedisService] class of [redis-service.js] (the durable backend)
    and the [TodoService] facade of [server.js] with its module-level
    [inMemoryTodos] array (the volatile backend), followed by the
    properties of the specification stated over them. *)

From stdpp Require Import gmap strings list sorting.

Local Open Scope string_scope.
Local Open Scope Z_scope.

(** ** Values *)

(** A timestamp is the ISO-8601 string that [new Date().toISOString()]
    produces.  The only thing the code ever does with one, besides storing
    and returning it, is to turn it back into a [Date] and subtract two of
    them in the sort comparator; we therefore carry the millisecond count
    the string denotes. *)
Definition Timestamp : Type := Z.

(** The todo object of the application.  [updatedAt] is the one property
    that may be missing on an object ([None] is JavaScript's [undefined]). *)
Record Todo : Type := mkTodo {
  id : string;
  text : string;
  completed : bool;
  createdAt : Timestamp;
  updatedAt : option Timestamp
}.

(** The [updates] argument of [updateTodo]: the handler of
    [PUT /api/todos/:id] builds it as [{ text, completed }], so a property
    the request body lacks is [undefined]. *)
Record Updates : Type := mkUpdates {
  upd_text : option string;
  upd_completed : option bool
}.

(** What an [async] method gives back: a value, or a thrown [Error] with
    its message. *)
Inductive result (A : Type) : Type :=
| Ok (a : A)
| Throw (message : string).
Arguments Ok {A} a.
Arguments Throw {A} message.

(** [Boolean.prototype.toString]. *)
Definition toString (b : bool) : string := if b then "true" else "false".

(** ** [Array.prototype.sort]

    The sort of the language is stable, and with a consistent comparator
    its result is determined: the elements in comparator order, equal ones
    in their original order.  We take the insertion sort that computes
    exactly this list. *)
Section Array_sort.
Context {A : Type} (compareFn : A → A → Z).

Fixpoint sort_insert (x : A) (l : list A) : list A :=
  match l with
  | [] => [x]
  | y :: l' => if compareFn x y <=? 0 then x :: l else y :: sort_insert x l'
  end.

Definition Array_sort (l : list A) : list A := foldr sort_insert [] l.
End Array_sort.

(** The comparator both backends pass to [sort]:
    [(a, b) => new Date(b.createdAt) - new Date(a.createdAt)]. *)
Definition byCreatedAtDesc (a b : Todo) : Z := createdAt b - createdAt a.

(** [a] may stand before [b] in the sorted listing: [a] is not older. *)
Definition newerFirst (a b : Todo) : Prop := createdAt b ≤ createdAt a.

(** [Array.prototype.find] and [findIndex] with the predicate
    [todo => todo.id === id]; [None] stands for [undefined] and for [-1]. *)
Definition find_by_id (i : string) (l : list Todo) : option Todo :=
  snd <$> list_find (λ todo, id todo = i) l.

Definition findIndex_by_id (i : string) (l : list Todo) : option nat :=
  fst <$> list_find (λ todo, id todo = i) l.

(** The three counters both [getStats] build from a list of todos. *)
Record Stats : Type := mkStats {
  total : nat;
  stats_completed : nat;
  pending : nat
}.

Definition stats_of (todos : list Todo) : Stats :=
  {| total := length todos;
     stats_completed := length (filter (λ todo, completed todo = true) todos);
     pending := length (filter (λ todo, negb (completed todo) = true) todos) |}.

(** ** The durable backend: class [RedisService] of [redis-service.js] *)
Module RedisService.

Definition TODOS_KEY : string := "todos:all".
Definition TODO_PREFIX : string := "todo:".

(** The template string [`${this.TODO_PREFIX}${id}`]. *)
Definition todoKey (i : string) : string := TODO_PREFIX +:+ i.

(** The hash stored under a todo key.  The service creates a hash only
    in [createTodo], whose [hSet] writes [id], [text], [completed] and
    [createdAt] together, and [updateTodo] writes to a key only after
    [exists] answered yes; so a stored hash always has these four
    fields and may lack [updatedAt] only.  [completed] is kept as the
    string the code stores. *)
Record Hash : Type := mkHash {
  h_id : string;
  h_text : string;
  h_completed : string;
  h_createdAt : Timestamp;
  h_updatedAt : option Timestamp
}.

(** The service object together with the part of the server's keyspace
    it touches: the set under [TODOS_KEY] and the hashes under the other
    keys ([todoKey] never yields [TODOS_KEY], see [todoKey_not_TODOS_KEY]
    below, so the two do not interfere). *)
Record t : Type := mk {
  isConnected : bool;
  todos_all : gset string;
  hashes : gmap string Hash
}.

(** The object the constructor builds, facing a server with no data. *)
Definition fresh : t :=
  {| isConnected := false; todos_all := ∅; hashes := ∅ |}.

(** *** The client commands the service issues *)

(** [client.hGetAll(key)]; [None] is the empty object the client answers
    for a key that does not exist. *)
Definition hGetAll (key : string) (s : t) : option Hash := hashes s !! key.

(** [client.exists(key)], for a todo key. *)
Definition exists_ (key : string) (s : t) : bool :=
  bool_decide (is_Some (hashes s !! key)).

(** [client.del(key)], for a todo key. *)
Definition del (key : string) (s : t) : t :=
  {| isConnected := isConnected s;
     todos_all := todos_all s;
     hashes := delete key (hashes s) |}.

(** [client.sAdd(this.TODOS_KEY, member)] and [client.sRem]. *)
Definition sAdd (member : string) (s : t) : t :=
  {| isConnected := isConnected s;
     todos_all := {[member]} ∪ todos_all s;
     hashes := hashes s |}.

Definition sRem (member : string) (s : t) : t :=
  {| isConnected := isConnected s;
     todos_all := todos_all s ∖ {[member]};
     hashes := hashes s |}.

(** The [hSet] of [createTodo]: it sets the four fields of the todo and,
    as HSET does, leaves any other field of an existing hash ([updatedAt])
    as it was. *)
Definition hSet_todo (key : string) (todo : Todo) (s : t) : t :=
  {| isConnected := isConnected s;
     todos_all := todos_all s;
     hashes := <[key := {| h_id := id todo;
                            h_text := text todo;
                            h_completed := toString (completed todo);
                            h_createdAt := createdAt todo;
                            h_updatedAt := hGetAll key s ≫= h_updatedAt |}]>
                 (hashes s) |}.

(** The [updateData] object of [updateTodo]. *)
Record UpdateData : Type := mkUpdateData {
  ud_updatedAt : Timestamp;
  ud_text : option string;
  ud_completed : option string
}.

Definition apply_updateData (d : UpdateData) (h : Hash) : Hash :=
  {| h_id := h_id h;
     h_text := default (h_text h) (ud_text d);
     h_completed := default (h_completed h) (ud_completed d);
     h_createdAt := h_createdAt h;
     h_updatedAt := Some (ud_updatedAt d) |}.

(** The [hSet] of [updateTodo], issued on a key that exists. *)
Definition hSet_updateData (key : string) (d : UpdateData) (s : t) : t :=
  {| isConnected := isConnected s;
     todos_all := todos_all s;
     hashes := alter (apply_updateData d) key (hashes s) |}.

(** *** Reading a todo back *)

(** The object literal built from [todoData] in [getAllTodos] and in
    [getTodoById], behind the test [todoData && todoData.id]: the empty
    string is falsy. *)
Definition toTodo (todoData : Hash) : option Todo :=
  if bool_decide (h_id todoData = "") then None
  else Some {| id := h_id todoData;
               text := h_text todoData;
               completed := bool_decide (h_completed todoData = "true");
               createdAt := h_createdAt todoData;
               updatedAt := Some (default (h_createdAt todoData)
                                          (h_updatedAt todoData)) |}.

Definition getTodoById (i : string) (s : t) : result (option Todo) :=
  if negb (isConnected s) then Throw "Redis not connected"
  else Ok (hGetAll (todoKey i) s ≫= toTodo).

Section sMembers.
(** [client.sMembers(this.TODOS_KEY)]: the members of the set, in an
    order the server chooses. *)
Variable sMembers : gset string → list string.

Definition getAllTodos (s : t) : result (list Todo) :=
  if negb (isConnected s) then Throw "Redis not connected"
  else
    let todoIds := sMembers (todos_all s) in
    if bool_decide (length todoIds = 0%nat) then Ok []
    else
      let todos := omap (λ i, hGetAll (todoKey i) s ≫= toTodo) todoIds in
      Ok (Array_sort byCreatedAtDesc todos).

Definition getStats (s : t) : result Stats :=
  if negb (isConnected s) then Throw "Redis not connected"
  else match getAllTodos s with
       | Ok todos => Ok (stats_of todos)
       | Throw e => Throw e
       end.
End sMembers.

(** *** Writing *)

Definition createTodo (todo : Todo) (s : t) : result Todo * t :=
  if negb (isConnected s) then (Throw "Redis not connected", s)
  else (Ok todo, sAdd (id todo) (hSet_todo (todoKey (id todo)) todo s)).

(** [now] is the value of [new Date().toISOString()] at the call.  The
    source also reads [currentTodo] before it builds [updateData], and
    does not use it. *)
Definition updateTodo (i : string) (updates : Updates) (now : Timestamp)
    (s : t) : result (option Todo) * t :=
  if negb (isConnected s) then (Throw "Redis not connected", s)
  else
    let todoKey := todoKey i in
    if negb (exists_ todoKey s) then (Ok None, s)
    else
      let updateData :=
        {| ud_updatedAt := now;
           ud_text := upd_text updates;
           ud_completed := toString <$> upd_completed updates |} in
      let s' := hSet_updateData todoKey updateData s in
      (getTodoById i s', s').

Definition deleteTodo (i : string) (s : t) : result (option Todo) * t :=
  if negb (isConnected s) then (Throw "Redis not connected", s)
  else
    match getTodoById i s with
    | Throw e => (Throw e, s)
    | Ok None => (Ok None, s)
    | Ok (Some todo) => (Ok (Some todo), sRem i (del (todoKey i) s))
    end.

(** *** Connecting and first-run seeding *)

(** The [defaultTodos] array of [initializeDefaultTodos]; the two ids
    come from [uuid.v4()] and the two timestamps from [new Date()]. *)
Definition defaultTodos (v1 v2 : string) (s1 s2 : Timestamp) : list Todo :=
  [ {| id := v1;
       text := "Welcome to your DevOps To-Do App with Redis!";
       completed := false; createdAt := s1; updatedAt := None |};
    {| id := v2;
       text := "Set up CI/CD pipeline with Redis database";
       completed := true; createdAt := s2; updatedAt := None |} ].

(** [for (const todo of defaultTodos) await this.createTodo(todo)],
    inside the [try]: a throw ends the loop and is swallowed by the
    [catch]. *)
Fixpoint createEach (todos : list Todo) (s : t) : t :=
  match todos with
  | [] => s
  | todo :: rest =>
      match createTodo todo s with
      | (Ok _, s') => createEach rest s'
      | (Throw _, s') => s'
      end
  end.

Section connect.
Variable sMembers : gset string → list string.

Definition initializeDefaultTodos (v1 v2 : string) (s1 s2 : Timestamp)
    (s : t) : t :=
  match getAllTodos sMembers s with
  | Ok existingTodos =>
      if bool_decide (length existingTodos = 0%nat)
      then createEach (defaultTodos v1 v2 s1 s2) s
      else s
  | Throw _ => s
  end.

(** [connect]: [reachable] tells whether [client.connect()] succeeds.
    When it does the client fires ['connect'], whose handler sets
    [isConnected]; when it throws, the [catch] clears the flag and the
    method answers [false]. *)
Definition connect (reachable : bool) (v1 v2 : string)
    (s1 s2 : Timestamp) (s : t) : bool * t :=
  if reachable then
    let s' := {| isConnected := true;
                 todos_all := todos_all s;
                 hashes := hashes s |} in
    (true, initializeDefaultTodos v1 v2 s1 s2 s')
  else
    (false, {| isConnected := false;
               todos_all := todos_all s;
               hashes := hashes s |}).
End connect.

(** *** The rest of the class *)

(** The [options] the client hands to [retry_strategy]: the code of
    [options.error] if there is an error and it has one, the milliseconds
    spent retrying, and the number of the attempt. *)
Record RetryOptions : Type := mkRetryOptions {
  error_code : option string;
  total_retry_time : Z;
  attempt : Z
}.

(** What [retry_strategy] returns: an [Error], [undefined], or the delay
    in milliseconds before the next attempt. *)
Inductive Retry : Type :=
| RetryError (message : string)
| RetryStop
| RetryAfter (ms : Z).

Definition retry_strategy (options : RetryOptions) : Retry :=
  if bool_decide (error_code options = Some "ECONNREFUSED")
  then RetryError "The Redis server refused the connection"
  else if 1000 * 60 * 60 <? total_retry_time options
  then RetryError "Retry time exhausted"
  else if 10 <? attempt options
  then RetryStop
  else RetryAfter (Z.min (attempt options * 100) 3000).

(** [disconnect]: it clears the flag when [this.client] is set.  The flag
    is only ever set by the client's ['connect'] event, so it is already
    clear when there is no client; the handlers of ['error'] and ['end']
    clear it in the same way. *)
Definition disconnect (s : t) : t :=
  {| isConnected := false; todos_all := todos_all s; hashes := hashes s |}.

(** [for (const todo of completedTodos) await this.deleteTodo(todo.id)]:
    a throw ends the loop and is passed on. *)
Fixpoint deleteEach (todos : list Todo) (s : t) : result unit * t :=
  match todos with
  | [] => (Ok tt, s)
  | todo :: rest =>
      match deleteTodo (id todo) s with
      | (Ok _, s') => deleteEach rest s'
      | (Throw e, s') => (Throw e, s')
      end
  end.

Section clearCompleted.
Variable sMembers : gset string → list string.

Definition clearCompleted (s : t) : result (list Todo) * t :=
  if negb (isConnected s) then (Throw "Redis not connected", s)
  else
    match getAllTodos sMembers s with
    | Throw e => (Throw e, s)
    | Ok todos =>
        let completedTodos := filter (λ todo, completed todo = true) todos in
        match deleteEach completedTodos s with
        | (Ok _, s') => (Ok completedTodos, s')
        | (Throw e, s') => (Throw e, s')
        end
    end.
End clearCompleted.

(** The object [healthCheck] answers with. *)
Record Health : Type := mkHealth {
  status : string;
  message : string
}.

(** [healthCheck]; [ping] is what [client.ping()] does at the call: [None]
    when it answers, [Some m] when it throws an error with message [m]. *)
Definition healthCheck (ping : option string) (s : t) : Health :=
  if negb (isConnected s)
  then {| status := "disconnected"; message := "Redis not connected" |}
  else match ping with
       | None => {| status := "healthy";
                    message := "Redis connection is healthy" |}
       | Some m => {| status := "error"; message := m |}
       end.

End RedisService.

(** ** The facade and the volatile backend: [server.js] *)
Module TodoService.

(** The module-level state the methods of [TodoService] work on: the
    flag [useRedis], the array [inMemoryTodos] and the [redisService]
    singleton. *)
Record t : Type := mk {
  useRedis : bool;
  inMemoryTodos : list Todo;
  redisService : RedisService.t
}.

(** The initial value of [inMemoryTodos]; ids from [uuidv4()],
    timestamps from [new Date()]. *)
Definition initialTodos (u1 u2 : string) (t1 t2 : Timestamp) : list Todo :=
  [ {| id := u1;
       text := "Welcome to your DevOps To-Do App!";
       completed := false; createdAt := t1; updatedAt := None |};
    {| id := u2;
       text := "Set up CI/CD pipeline";
       completed := true; createdAt := t2; updatedAt := None |} ].

(** The state once [server.js] is loaded, before the listen callback. *)
Definition loaded (u1 u2 : string) (t1 t2 : Timestamp)
    (r : RedisService.t) : t :=
  {| useRedis := false;
     inMemoryTodos := initialTodos u1 u2 t1 t2;
     redisService := r |}.

Definition with_todos (sv : t) (todos : list Todo) : t :=
  {| useRedis := useRedis sv;
     inMemoryTodos := todos;
     redisService := redisService sv |}.

Definition with_redis (sv : t) (r : RedisService.t) : t :=
  {| useRedis := useRedis sv;
     inMemoryTodos := inMemoryTodos sv;
     redisService := r |}.

(** The assignments [inMemoryTodos[todoIndex].p = v]. *)
Definition set_text (v : string) (todo : Todo) : Todo :=
  {| id := id todo; text := v; completed := completed todo;
     createdAt := createdAt todo; updatedAt := updatedAt todo |}.
Definition set_completed (v : bool) (todo : Todo) : Todo :=
  {| id := id todo; text := text todo; completed := v;
     createdAt := createdAt todo; updatedAt := updatedAt todo |}.
Definition set_updatedAt (v : Timestamp) (todo : Todo) : Todo :=
  {| id := id todo; text := text todo; completed := completed todo;
     createdAt := createdAt todo; updatedAt := Some v |}.

Section methods.
Variable sMembers : gset string → list string.

(** [sort] works in place: the array is left sorted, and it is the
    array itself that is returned. *)
Definition getAllTodos (sv : t) : result (list Todo) * t :=
  if useRedis sv then
    (RedisService.getAllTodos sMembers (redisService sv), sv)
  else
    let sorted := Array_sort byCreatedAtDesc (inMemoryTodos sv) in
    (Ok sorted, with_todos sv sorted).

Definition getTodoById (i : string) (sv : t) : result (option Todo) :=
  if useRedis sv then RedisService.getTodoById i (redisService sv)
  else Ok (find_by_id i (inMemoryTodos sv)).

Definition createTodo (todo : Todo) (sv : t) : result Todo * t :=
  if useRedis sv then
    let '(r, s') := RedisService.createTodo todo (redisService sv) in
    (r, with_redis sv s')
  else
    (Ok todo, with_todos sv (inMemoryTodos sv ++ [todo])).

Definition updateTodo (i : string) (updates : Updates) (now : Timestamp)
    (sv : t) : result (option Todo) * t :=
  if useRedis sv then
    let '(r, s') :=
      RedisService.updateTodo i updates now (redisService sv) in
    (r, with_redis sv s')
  else
    match findIndex_by_id i (inMemoryTodos sv) with
    | None => (Ok None, sv)
    | Some todoIndex =>
        let todos1 :=
          match upd_text updates with
          | Some v => alter (set_text v) todoIndex (inMemoryTodos sv)
          | None => inMemoryTodos sv
          end in
        let todos2 :=
          match upd_completed updates with
          | Some v => alter (set_completed v) todoIndex todos1
          | None => todos1
          end in
        let todos3 := alter (set_updatedAt now) todoIndex todos2 in
        (Ok (todos3 !! todoIndex), with_todos sv todos3)
    end.

(** [splice(todoIndex, 1)[0]]: the element is cut out and returned. *)
Definition deleteTodo (i : string) (sv : t) : result (option Todo) * t :=
  if useRedis sv then
    let '(r, s') := RedisService.deleteTodo i (redisService sv) in
    (r, with_redis sv s')
  else
    match findIndex_by_id i (inMemoryTodos sv) with
    | None => (Ok None, sv)
    | Some todoIndex =>
        (Ok (inMemoryTodos sv !! todoIndex),
         with_todos sv (delete todoIndex (inMemoryTodos sv)))
    end.

Definition getStats (sv : t) : result Stats :=
  if useRedis sv then RedisService.getStats sMembers (redisService sv)
  else Ok (stats_of (inMemoryTodos sv)).

(** The callback of [app.listen]: the one place where the backend is
    chosen. *)
Definition onListen (reachable : bool) (v1 v2 : string)
    (s1 s2 : Timestamp) (sv : t) : t :=
  let '(redisConnected, s') :=
    RedisService.connect sMembers reachable v1 v2 s1 s2
      (redisService sv) in
  {| useRedis := redisConnected;
     inMemoryTodos := inMemoryTodos sv;
     redisService := s' |}.

(** A started service: [server.js] loaded and the listen callback
    run, against the server data held in [r]. *)
Definition start (reachable : bool) (u1 u2 : string) (t1 t2 : Timestamp)
    (v1 v2 : string) (s1 s2 : Timestamp) (r : RedisService.t) : t :=
  onListen reachable v1 v2 s1 s2 (loaded u1 u2 t1 t2 r).

(** *** Sequences of operations *)
Inductive Op : Type :=
| Create (todo : Todo)
| Update (i : string) (updates : Updates) (now : Timestamp)
| Delete (i : string)
| List.

Definition step (sv : t) (op : Op) : t :=
  match op with
  | Create todo => snd (createTodo todo sv)
  | Update i updates now => snd (updateTodo i updates now sv)
  | Delete i => snd (deleteTodo i sv)
  | List => snd (getAllTodos sv)
  end.

Definition run (ops : list Op) (sv : t) : t := foldl step sv ops.
End methods.

(** *** Health and shutdown *)

Definition healthCheck (ping : option string) (sv : t) : RedisService.Health :=
  if useRedis sv then RedisService.healthCheck ping (redisService sv)
  else {| RedisService.status := "in-memory";
          RedisService.message := "Using in-memory storage" |}.

(** What the handlers of SIGTERM and SIGINT do to the storage before the
    server closes. *)
Definition onSignal (sv : t) : t :=
  if useRedis sv
  then with_redis sv (RedisService.disconnect (redisService sv))
  else sv.

End TodoService.

(** ** The route handlers of [server.js] that call the storage core *)
Module Routes.

Inductive Response : Type :=
| Json (status : nat) (data : Todo)
| Failure (status : nat) (error : string).

(** The object [newTodo] of the [POST /api/todos] handler. *)
Definition newTodo (uuid : string) (trimmed : string) (now : Timestamp)
    : Todo :=
  {| id := uuid; text := trimmed; completed := false;
     createdAt := now; updatedAt := None |}.

Section handlers.
(** [String.prototype.trim]. *)
Variable trim : string → string.

(** [POST /api/todos]; [body_text] is [req.body.text], [uuid] and
    [now] what [uuidv4()] and [new Date()] give. *)
Definition post_todos (body_text : option string) (uuid : string)
    (now : Timestamp) (sv : TodoService.t) : Response * TodoService.t :=
  match body_text with
  | None => (Failure 400 "Todo text is required", sv)
  | Some text =>
      if bool_decide (text = "") || bool_decide (trim text = "")
      then (Failure 400 "Todo text is required", sv)
      else
        match TodoService.createTodo (newTodo uuid (trim text) now) sv with
        | (Ok createdTodo, sv') => (Json 201 createdTodo, sv')
        | (Throw _, sv') => (Failure 500 "Failed to create todo", sv')
        end
  end.

(** [PUT /api/todos/:id]; [updates] is [{ text, completed }] taken
    from the body as it is. *)
Definition put_todo (i : string) (updates : Updates) (now : Timestamp)
    (sv : TodoService.t) : Response * TodoService.t :=
  match TodoService.updateTodo i updates now sv with
  | (Ok None, sv') => (Failure 404 "Todo not found", sv')
  | (Ok (Some updatedTodo), sv') => (Json 200 updatedTodo, sv')
  | (Throw _, sv') => (Failure 500 "Failed to update todo", sv')
  end.

(** [DELETE /api/todos/:id]. *)
Definition delete_todo (i : string) (sv : TodoService.t)
    : Response * TodoService.t :=
  match TodoService.deleteTodo i sv with
  | (Ok None, sv') => (Failure 404 "Todo not found", sv')
  | (Ok (Some deletedTodo), sv') => (Json 200 deletedTodo, sv')
  | (Throw _, sv') => (Failure 500 "Failed to delete todo", sv')
  end.
End handlers.

Section reading_handlers.
Variable sMembers : gset string → list string.
(** The numbers of the language, for [process.uptime()]. *)
Variable Number : Type.

(** The two bodies [GET /health] answers with. *)
Inductive HealthBody : Type :=
| HealthOK (timestamp : Timestamp) (uptime : Number) (environment : string)
    (database : RedisService.Health) (stats : Stats)
| HealthERROR (timestamp : Timestamp) (error : string)
    (database : RedisService.Health).

(** [process.env.NODE_ENV || 'development']. *)
Definition environment_of (NODE_ENV : option string) : string :=
  match NODE_ENV with
  | Some e => if bool_decide (e = "") then "development" else e
  | None => "development"
  end.

(** [GET /health]: the answer of [healthCheck], then the stats; a throw
    of either goes to the [catch]. *)
Definition get_health (ping : option string) (now : Timestamp)
    (uptime : Number) (NODE_ENV : option string) (sv : TodoService.t)
    : nat * HealthBody :=
  let dbHealth := TodoService.healthCheck ping sv in
  match TodoService.getStats sMembers sv with
  | Ok stats =>
      (200%nat, HealthOK now uptime (environment_of NODE_ENV) dbHealth stats)
  | Throw e =>
      (500%nat, HealthERROR now "Health check failed"
                  {| RedisService.status := "error";
                     RedisService.message := e |})
  end.

(** The two bodies [GET /api/todos] answers with. *)
Inductive TodosBody : Type :=
| Todos (status : nat) (data : list Todo) (count : nat)
| TodosFailure (status : nat) (error : string).

Definition get_todos (sv : TodoService.t) : TodosBody * TodoService.t :=
  match TodoService.getAllTodos sMembers sv with
  | (Ok todos, sv') => (Todos 200 todos (length todos), sv')
  | (Throw _, sv') => (TodosFailure 500 "Failed to fetch todos", sv')
  end.
End reading_handlers.

End Routes.

(** ** Vocabulary of the properties *)

(** The server answers [SMEMBERS] with the members of the set, each once,
    in some order. *)
Definition sMembers_ok (sMembers : gset string → list string) : Prop :=
  ∀ X, sMembers X ≡ₚ elements X.

(** The todo a stored hash is read back as, if any. *)
Definition readTodo (s : RedisService.t) (i : string) : option Todo :=
  RedisService.hGetAll (RedisService.todoKey i) s ≫= RedisService.toTodo.

(** The dataset of the durable backend: the todos of the index entries
    that have a record. *)
Definition records (s : RedisService.t) : list Todo :=
  omap (readTodo s) (elements (RedisService.todos_all s)).

(** Every hash sits under the key of the id it holds, as the hashes
    [createTodo] writes do. *)
Definition keyed_by_id (s : RedisService.t) : Prop :=
  map_Forall (λ key h, key = RedisService.todoKey (RedisService.h_id h))
             (RedisService.hashes s).

(** The selected backend answers: the volatile one always does, the
    durable one as long as the connection is up. *)
Definition available (sv : TodoService.t) : Prop :=
  TodoService.useRedis sv = true →
  RedisService.isConnected (TodoService.redisService sv) = true.

(** The durable data, when that backend is the selected one, is keyed by
    id. *)
Definition well_keyed (sv : TodoService.t) : Prop :=
  TodoService.useRedis sv = true → keyed_by_id (TodoService.redisService sv).

(** The volatile array, when that backend is the selected one, holds no
    id twice. *)
Definition unique_ids (sv : TodoService.t) : Prop :=
  TodoService.useRedis sv = false →
  NoDup (id <$> TodoService.inMemoryTodos sv).

(** [get(i)] finds an Item. *)
Definition holds (sv : TodoService.t) (i : string) : Prop :=
  ∃ todo, TodoService.getTodoById i sv = Ok (Some todo).

(** The Item the selected backend has under an id, if any. *)
Definition stored (sv : TodoService.t) (i : string) : option Todo :=
  if TodoService.useRedis sv then readTodo (TodoService.redisService sv) i
  else find_by_id i (TodoService.inMemoryTodos sv).

(** The Item an update at time [now] makes of [todo]: the properties
    present in [updates] replaced, [updatedAt] set, the rest kept. *)
Definition updated (updates : Updates) (now : Timestamp) (todo : Todo)
    : Todo :=
  {| id := id todo;
     text := default (text todo) (upd_text updates);
     completed := default (completed todo) (upd_completed updates);
     createdAt := createdAt todo;
     updatedAt := Some now |}.

(** How the selected backend reads an Item back right after it was
    created under an id it did not hold: the array gives the object that
    was pushed, the hash has no [updatedAt] field and [createdAt] stands
    in for it. *)
Definition read_back (sv : TodoService.t) (todo : Todo) : Todo :=
  if TodoService.useRedis sv
  then {| id := id todo; text := text todo; completed := completed todo;
          createdAt := createdAt todo; updatedAt := Some (createdAt todo) |}
  else todo.

(** The dataset of the selected backend. *)
Definition dataset (sv : TodoService.t) : list Todo :=
  if TodoService.useRedis sv then records (TodoService.redisService sv)
  else TodoService.inMemoryTodos sv.

(** The dataset is empty: no element in the array, or no entry in the
    index and no hash. *)
Definition empty_dataset (sv : TodoService.t) : Prop :=
  if TodoService.useRedis sv
  then RedisService.todos_all (TodoService.redisService sv) = ∅ ∧
       RedisService.hashes (TodoService.redisService sv) = ∅
  else TodoService.inMemoryTodos sv = [].

(** What a listing shows of an Item apart from its id and timestamps. *)
Definition shown (todo : Todo) : string * bool := (text todo, completed todo).

(** The id an operation is aimed at, if any. *)
Definition target (op : TodoService.Op) : option string :=
  match op with
  | TodoService.Create todo => Some (id todo)
  | TodoService.Update i _ _ => Some i
  | TodoService.Delete i => Some i
  | TodoService.List => None
  end.

(** The ids handed out so far, once [op] has run. *)
Definition op_used (used : list string) (op : TodoService.Op) : list string :=
  match op with
  | TodoService.Create todo => id todo :: used
  | _ => used
  end.

Definition used_after (used : list string) (ops : list TodoService.Op)
    : list string :=
  foldl op_used used ops.

(** A [Create] brings an id that is not among those handed out so far, as
    [uuidv4()] is relied on to do in the handler of [POST /api/todos]. *)
Definition fresh_op (used : list string) (op : TodoService.Op) : Prop :=
  match op with
  | TodoService.Create todo => id todo ∉ used
  | _ => True
  end.

Fixpoint fresh_creates (used : list string) (ops : list TodoService.Op)
    : Prop :=
  match ops with
  | [] => True
  | op :: rest => fresh_op used op ∧ fresh_creates (op_used used op) rest
  end.

(** A service in good order: the selected backend answers, the durable
    data is keyed by id, the volatile array holds no id twice. *)
Definition sound (sv : TodoService.t) : Prop :=
  available sv ∧ well_keyed sv ∧ unique_ids sv.

(** Every id the backend holds an Item under has been handed out. *)
Definition covers (used : list string) (sv : TodoService.t) : Prop :=
  ∀ i, is_Some (stored sv i) → i ∈ used.

(** Index and hashes go together: an id is in the index exactly when
    there is a hash under its key. *)
Definition synced (s : RedisService.t) : Prop :=
  ∀ i, i ∈ RedisService.todos_all s ↔
       is_Some (RedisService.hashes s !! RedisService.todoKey i).

Definition well_synced (sv : TodoService.t) : Prop :=
  TodoService.useRedis sv = true → synced (TodoService.redisService sv).

(** What an update aimed at [i] makes of an Item of the dataset. *)
Definition retouched (i : string) (updates : Updates) (now : Timestamp)
    (todo : Todo) : Todo :=
  if decide (id todo = i) then updated updates now todo else todo.

(** The body text of a [POST /api/todos] is refused: it is missing, empty,
    or nothing but what [trim] takes away. *)
Definition refused_text (trim : string → string) (body_text : option string)
    : Prop :=
  match body_text with
  | None => True
  | Some text => text = "" ∨ trim text = ""
  end.

(** ** Example states *)

Definition todoA : Todo := Routes.newTodo "a" "A" 1.
Definition todoB : Todo := Routes.newTodo "b" "B" 2.
Definition todoC : Todo := Routes.newTodo "c" "C" 3.
(** A later Item that brings the id of [todoA] again. *)
Definition todoA_again : Todo := Routes.newTodo "a" "again" 4.

(** A service started while the durable backend is unreachable, and one
    started against a reachable server with no data. *)
Definition volatile_service : TodoService.t :=
  TodoService.start elements false "u1" "u2" 10 11 "v1" "v2" 20 21
    RedisService.fresh.
Definition durable_service : TodoService.t :=
  TodoService.start elements true "u1" "u2" 10 11 "v1" "v2" 20 21
    RedisService.fresh.

(** The two backends with an empty dataset. *)
Definition volatile_empty : TodoService.t :=
  {| TodoService.useRedis := false;
     TodoService.inMemoryTodos := [];
     TodoService.redisService := RedisService.fresh |}.
Definition durable_empty : TodoService.t :=
  {| TodoService.useRedis := true;
     TodoService.inMemoryTodos := [];
     TodoService.redisService :=
       {| RedisService.isConnected := true;
          RedisService.todos_all := ∅;
          RedisService.hashes := ∅ |} |}.

(** The same two with the Item "A" created in them. *)
Definition volatile_with_A : TodoService.t :=
  (TodoService.createTodo todoA volatile_empty).2.
Definition durable_with_A : TodoService.t :=
  (TodoService.createTodo todoA durable_empty).2.

(** A durable store whose index has an entry, "g", without a hash. *)
Definition durable_ghost : RedisService.t :=
  {| RedisService.isConnected := true;
     RedisService.todos_all := {["g"]} ∪ {["a"]};
     RedisService.hashes :=
       {[ RedisService.todoKey "a" :=
            {| RedisService.h_id := "a"; RedisService.h_text := "A";
               RedisService.h_completed := "false";
               RedisService.h_createdAt := 1;
               RedisService.h_updatedAt := None |} ]} |}.

(** The started durable service after a shutdown signal. *)
Definition durable_down : TodoService.t :=
  TodoService.onSignal durable_service.

(** ** Sorting *)
Section Array_sort_facts.
Context {A : Type} (compareFn : A → A → Z).

Lemma sort_insert_Permutation x l : sort_insert compareFn x l ≡ₚ x :: l.
Proof.
  induction l as [|y l IH]; simpl; [done|].
  case_match; [done|]. rewrite IH. apply Permutation_swap.
Qed.

Lemma Array_sort_Permutation l : Array_sort compareFn l ≡ₚ l.
Proof.
  induction l as [|x l IH]; simpl; [done|].
  rewrite sort_insert_Permutation, IH. done.
Qed.
End Array_sort_facts.

Global Instance newerFirst_trans : Transitive newerFirst.
Proof. unfold newerFirst. intros x y z ??. lia. Qed.

Lemma sort_insert_sorted x l :
  StronglySorted newerFirst l →
  StronglySorted newerFirst (sort_insert byCreatedAtDesc x l).
Proof.
  induction 1 as [|y l Hl IH Hy]; simpl.
  { repeat constructor. }
  unfold byCreatedAtDesc at 1. case_match eqn:Hc.
  - apply Z.leb_le in Hc. constructor; [by constructor|].
    assert (newerFirst x y) by (unfold newerFirst; lia).
    constructor; [done|]. eapply Forall_impl; [exact Hy|].
    intros z ?. by etrans.
  - apply Z.leb_gt in Hc. constructor; [done|].
    rewrite sort_insert_Permutation. constructor; [|done].
    unfold newerFirst. lia.
Qed.

Lemma Array_sort_sorted l :
  StronglySorted newerFirst (Array_sort byCreatedAtDesc l).
Proof.
  induction l as [|x l IH]; simpl; [constructor|].
  by apply sort_insert_sorted.
Qed.

(** The sort is stable: Items with the same timestamp keep the order they
    had.  With [Array_sort_sorted] and [Array_sort_Permutation] this fixes
    the result, whatever algorithm the engine runs. *)
Lemma sort_insert_stable t x l :
  filter (λ y, createdAt y = t) (sort_insert byCreatedAtDesc x l)
  = filter (λ y, createdAt y = t) (x :: l).
Proof.
  induction l as [|y l IH]; simpl; [done|].
  unfold byCreatedAtDesc at 1. case_match eqn:Hc; [done|].
  apply Z.leb_gt in Hc. rewrite filter_cons, IH, !filter_cons.
  repeat case_decide; try done. lia.
Qed.

Lemma Array_sort_stable t l :
  filter (λ y, createdAt y = t) (Array_sort byCreatedAtDesc l)
  = filter (λ y, createdAt y = t) l.
Proof.
  induction l as [|x l IH]; simpl; [done|].
  by rewrite sort_insert_stable, !filter_cons, IH.
Qed.

(** A list that is already newest-first is left as it is. *)
Lemma Array_sort_fixed l :
  StronglySorted newerFirst l → Array_sort byCreatedAtDesc l = l.
Proof.
  induction 1 as [|x l Hl IH Hx]; simpl; [done|].
  rewrite IH. destruct l as [|y l]; simpl; [done|].
  apply Forall_cons in Hx as [Hxy _].
  unfold byCreatedAtDesc, newerFirst in *.
  case_match eqn:Hc; [done|]. apply Z.leb_gt in Hc. lia.
Qed.

(** With pairwise different timestamps the newest-first order of a
    dataset is unique. *)
Lemma newerFirst_unique l1 l2 :
  (∀ x y, x ∈ l1 → y ∈ l1 → createdAt x = createdAt y → x = y) →
  StronglySorted newerFirst l1 → StronglySorted newerFirst l2 →
  l1 ≡ₚ l2 → l1 = l2.
Proof.
  intros Hinj H1 H2 Hp. apply (StronglySorted_unique_strong newerFirst); try done.
  intros x y Hx Hy Hxy Hyx. apply Hinj; [done|by rewrite Hp|].
  unfold newerFirst in *. lia.
Qed.

(** ** Searching the array by id *)

Lemma find_by_id_cases i (l : list Todo) :
  (find_by_id i l = None ∧ findIndex_by_id i l = None ∧
   Forall (λ todo, id todo ≠ i) l) ∨
  (∃ k todo, find_by_id i l = Some todo ∧ findIndex_by_id i l = Some k ∧
             l !! k = Some todo ∧ id todo = i ∧
             ∀ j y, l !! j = Some y → (j < k)%nat → id y ≠ i).
Proof.
  unfold find_by_id, findIndex_by_id.
  destruct (list_find (λ todo, id todo = i) l) as [[k todo]|] eqn:Hf.
  - right. exists k, todo. apply list_find_Some in Hf as (?&?&?). done.
  - left. by apply list_find_None in Hf.
Qed.

Lemma find_by_id_Some i l todo :
  find_by_id i l = Some todo → todo ∈ l ∧ id todo = i.
Proof.
  destruct (find_by_id_cases i l) as [(->&_)|(k&t'&->&_&Hk&?&_)]; [done|].
  intros [= <-]. split; [|done]. by eapply list_elem_of_lookup_2.
Qed.

Lemma find_by_id_None i l :
  find_by_id i l = None ↔ Forall (λ todo, id todo ≠ i) l.
Proof.
  unfold find_by_id. rewrite fmap_None. apply list_find_None.
Qed.

Lemma find_by_id_elem_of l todo :
  todo ∈ l → ∃ todo', find_by_id (id todo) l = Some todo'.
Proof.
  intros Hin. destruct (find_by_id (id todo) l) eqn:Hf; [by eauto|].
  apply find_by_id_None in Hf. rewrite Forall_forall in Hf.
  by destruct (Hf _ Hin).
Qed.

Lemma NoDup_ids_eq (l : list Todo) x y :
  NoDup (id <$> l) → x ∈ l → y ∈ l → id x = id y → x = y.
Proof.
  induction l as [|z l IH]; csimpl; [by inversion 2|].
  rewrite NoDup_cons. intros [Hz Hl] Hx Hy Hxy.
  apply elem_of_cons in Hx as [->|Hx]; apply elem_of_cons in Hy as [->|Hy];
    [done| | |by apply IH].
  - destruct Hz. rewrite Hxy. by apply list_elem_of_fmap_2.
  - destruct Hz. rewrite <- Hxy. by apply list_elem_of_fmap_2.
Qed.

Lemma find_by_id_unique l todo :
  NoDup (id <$> l) → todo ∈ l → find_by_id (id todo) l = Some todo.
Proof.
  intros Hnd Hin. destruct (find_by_id_elem_of l todo Hin) as [t' Hf].
  rewrite Hf. f_equal.
  apply find_by_id_Some in Hf as [??]. by eapply NoDup_ids_eq.
Qed.

(** With unique ids the search does not depend on the order of the array. *)
Lemma find_by_id_Permutation i l l' :
  NoDup (id <$> l) → l ≡ₚ l' → find_by_id i l = find_by_id i l'.
Proof.
  intros Hnd Hp. destruct (find_by_id i l) as [todo|] eqn:Hf.
  - apply find_by_id_Some in Hf as [Hin <-]. symmetry.
    apply find_by_id_unique; [by rewrite <- Hp|by rewrite <- Hp].
  - symmetry. apply find_by_id_None. rewrite <- Hp.
    by apply find_by_id_None.
Qed.

Lemma find_by_id_cons i l todo :
  find_by_id i (todo :: l) =
  if decide (id todo = i) then Some todo else find_by_id i l.
Proof.
  unfold find_by_id. simpl. case_decide; [done|].
  by destruct (list_find _ l) as [[??]|].
Qed.

Lemma find_by_id_snoc i l todo :
  find_by_id i (l ++ [todo]) =
  match find_by_id i l with
  | Some x => Some x
  | None => if decide (id todo = i) then Some todo else None
  end.
Proof.
  unfold find_by_id.
  destruct (list_find (λ t, id t = i) l) as [[k x]|] eqn:Hf; simpl.
  - by erewrite list_find_app_l.
  - rewrite list_find_app_r by done. simpl. by case_decide.
Qed.

(** Changing the element at one index by a function that keeps ids moves
    no element: the search finds the same index, and the changed element
    when that index is the changed one. *)
Lemma list_find_alter_id i (f : Todo → Todo) k l :
  (∀ x, id (f x) = id x) →
  list_find (λ todo, id todo = i) (alter f k l) =
  (λ p, (p.1, if decide (p.1 = k) then f p.2 else p.2)) <$>
    list_find (λ todo, id todo = i) l.
Proof.
  intros Hf. revert k. induction l as [|x l IH]; intros k; [done|].
  destruct k as [|k]; simpl.
  - rewrite Hf. case_decide; [done|].
    by destruct (list_find _ l) as [[j y]|].
  - case_decide; [done|]. specialize (IH k). unfold alter in IH. rewrite IH.
    destruct (list_find _ l) as [[j y]|]; simpl; [|done].
    do 2 f_equal. destruct (decide (j = k)).
    + by rewrite decide_True by lia.
    + by rewrite decide_False by lia.
Qed.

Lemma find_by_id_alter_found i f (k : nat) (l : list Todo) :
  (∀ x, id (f x) = id x) → findIndex_by_id i l = Some k →
  find_by_id i (alter f k l) = f <$> find_by_id i l.
Proof.
  intros Hf. unfold findIndex_by_id, find_by_id.
  rewrite list_find_alter_id by done.
  destruct (list_find _ l) as [[j y]|]; simpl; [|done].
  intros [= ->]. by rewrite decide_True.
Qed.

Lemma ids_alter (f : Todo → Todo) (k : nat) (l : list Todo) :
  (∀ x, id (f x) = id x) → id <$> alter f k l = id <$> l.
Proof.
  intros Hf. revert k. induction l as [|x l IH]; intros [|k]; csimpl;
    rewrite ?Hf, ?IH; done.
Qed.

(** Once the first element with the id is cut out of an array without
    duplicate ids, the id is gone. *)
Lemma find_by_id_delete i (k : nat) (l : list Todo) :
  NoDup (id <$> l) → findIndex_by_id i l = Some k →
  find_by_id i (delete k l) = None.
Proof.
  intros Hnd Hk. destruct (find_by_id_cases i l)
    as [(_&Hn&_)|(k'&todo&_&Hk'&Hl&Hid&_)]; [congruence|].
  assert (k' = k) as -> by congruence.
  rewrite (delete_Permutation l k todo Hl) in Hnd. csimpl in Hnd.
  apply NoDup_cons in Hnd as [Hnin _].
  apply find_by_id_None, Forall_forall. intros y Hy Hyi.
  apply Hnin. rewrite Hid, <- Hyi. by apply list_elem_of_fmap_2.
Qed.

Lemma stats_of_consistent todos :
  (stats_completed (stats_of todos) + pending (stats_of todos))%nat
  = total (stats_of todos).
Proof.
  unfold stats_of; simpl. induction todos as [|todo todos IH]; [done|].
  rewrite !filter_cons. destruct (completed todo); simpl; lia.
Qed.

(** ** The durable backend: keys, reads and the effect of each write *)

Lemma todoKey_inj i j : RedisService.todoKey i = RedisService.todoKey j → i = j.
Proof. unfold RedisService.todoKey, RedisService.TODO_PREFIX. by intros [=]. Qed.

(** No todo key is the key of the index, whatever the id. *)
Lemma todoKey_not_TODOS_KEY i :
  RedisService.todoKey i ≠ RedisService.TODOS_KEY.
Proof. done. Qed.

Section redis_facts.
Variable sMembers : gset string → list string.
Implicit Types s : RedisService.t.

Lemma redis_getTodoById_connected i s :
  RedisService.isConnected s = true →
  RedisService.getTodoById i s = Ok (readTodo s i).
Proof. unfold RedisService.getTodoById. by intros ->. Qed.

Lemma redis_getAllTodos_connected s :
  RedisService.isConnected s = true →
  RedisService.getAllTodos sMembers s =
  Ok (Array_sort byCreatedAtDesc
        (omap (readTodo s) (sMembers (RedisService.todos_all s)))).
Proof.
  unfold RedisService.getAllTodos. intros ->; simpl.
  case_bool_decide as Hlen; [|done].
  apply length_zero_iff_nil in Hlen. by rewrite Hlen.
Qed.

Lemma redis_getAllTodos_records s :
  sMembers_ok sMembers → RedisService.isConnected s = true →
  ∃ l, RedisService.getAllTodos sMembers s = Ok l ∧
       StronglySorted newerFirst l ∧ l ≡ₚ records s.
Proof.
  intros Hok Hc. eexists. split; [by apply redis_getAllTodos_connected|].
  split; [apply Array_sort_sorted|].
  rewrite Array_sort_Permutation. unfold records. by rewrite (Hok _).
Qed.

(** A todo read from a store keyed by id carries the id it was asked
    under. *)
Lemma readTodo_id s i todo :
  keyed_by_id s → readTodo s i = Some todo → id todo = i.
Proof.
  unfold readTodo, RedisService.hGetAll, RedisService.toTodo.
  intros Hk Hr. destruct (RedisService.hashes s !! _) as [h|] eqn:Hh;
    simpl in Hr; [|done].
  apply Hk in Hh. apply todoKey_inj in Hh. case_bool_decide; [done|].
  by simplify_eq.
Qed.

Lemma readTodo_createTodo todo j s :
  RedisService.isConnected s = true →
  readTodo (RedisService.createTodo todo s).2 j =
  if decide (j = id todo)
  then RedisService.toTodo
         {| RedisService.h_id := id todo;
            RedisService.h_text := text todo;
            RedisService.h_completed := toString (completed todo);
            RedisService.h_createdAt := createdAt todo;
            RedisService.h_updatedAt :=
              RedisService.hashes s !! RedisService.todoKey (id todo)
                ≫= RedisService.h_updatedAt |}
  else readTodo s j.
Proof.
  unfold RedisService.createTodo. intros ->; simpl.
  unfold readTodo, RedisService.hGetAll; simpl. case_decide as Hj.
  - subst. by rewrite lookup_insert_eq.
  - rewrite lookup_insert_ne; [done|]. intros ?%todoKey_inj. done.
Qed.

Lemma todos_all_createTodo todo s :
  RedisService.isConnected s = true →
  RedisService.todos_all (RedisService.createTodo todo s).2 =
  {[id todo]} ∪ RedisService.todos_all s.
Proof. unfold RedisService.createTodo. by intros ->. Qed.

Lemma toString_true b : bool_decide (toString b = "true") = b.
Proof. by destruct b. Qed.

(** What [updateTodo] does to a record that exists. *)
Lemma redis_updateTodo_Some i updates now s todo :
  RedisService.isConnected s = true →
  readTodo s i = Some todo →
  ∃ s', RedisService.updateTodo i updates now s =
          (Ok (Some (updated updates now todo)), s') ∧
        readTodo s' i =
          Some (updated updates now todo) ∧
        (∀ j, j ≠ i → readTodo s' j = readTodo s j) ∧
        RedisService.todos_all s' = RedisService.todos_all s ∧
        RedisService.isConnected s' = true.
Proof.
  intros Hc Hr.
  set (s' := RedisService.hSet_updateData (RedisService.todoKey i)
               {| RedisService.ud_updatedAt := now;
                  RedisService.ud_text := upd_text updates;
                  RedisService.ud_completed :=
                    toString <$> upd_completed updates |} s).
  assert (is_Some (RedisService.hashes s !! RedisService.todoKey i))
    as Hex.
  { unfold readTodo, RedisService.hGetAll in Hr.
    destruct (RedisService.hashes s !! _); [by eauto|done]. }
  assert (readTodo s' i =
          Some (updated updates now todo)) as Hr'.
  { destruct Hex as [h Hh].
    unfold readTodo, RedisService.hGetAll in *; simpl.
    rewrite lookup_alter_eq. rewrite Hh in *; simpl in *.
    unfold RedisService.toTodo, updated in *; simpl.
    case_bool_decide; [done|]. simplify_eq; simpl.
    destruct (upd_completed updates) as [b|]; simpl;
      [by rewrite toString_true|done]. }
  exists s'. split; [|split; [done|split; [|done]]].
  - unfold RedisService.updateTodo. rewrite Hc; simpl.
    unfold RedisService.exists_. rewrite bool_decide_eq_true_2 by done.
    simpl. fold s'. by rewrite redis_getTodoById_connected, Hr'.
  - intros j Hj. unfold readTodo, RedisService.hGetAll; simpl.
    rewrite lookup_alter_ne; [done|]. by intros ?%todoKey_inj.
Qed.

(** [updateTodo] on an id that reads as no todo changes no todo. *)
Lemma redis_updateTodo_None i updates now s :
  RedisService.isConnected s = true →
  readTodo s i = None →
  ∃ s', RedisService.updateTodo i updates now s = (Ok None, s') ∧
        (∀ j, readTodo s' j = readTodo s j) ∧
        RedisService.todos_all s' = RedisService.todos_all s ∧
        RedisService.isConnected s' = true.
Proof.
  intros Hc Hr. unfold RedisService.updateTodo. rewrite Hc; simpl.
  unfold RedisService.exists_.
  unfold readTodo, RedisService.hGetAll in Hr.
  destruct (RedisService.hashes s !! RedisService.todoKey i) as [h|] eqn:Hh;
    simpl in Hr.
  - rewrite bool_decide_eq_true_2 by eauto. simpl.
    eexists. split.
    { f_equal. rewrite redis_getTodoById_connected by done. f_equal.
      unfold readTodo, RedisService.hGetAll; simpl.
      rewrite lookup_alter_eq, Hh; simpl.
      unfold RedisService.toTodo in *; simpl. by case_bool_decide. }
    split; [|done].
    + intros j. unfold readTodo, RedisService.hGetAll; simpl.
      destruct (decide (j = i)) as [->|Hj].
      * rewrite lookup_alter_eq, Hh; simpl.
        unfold RedisService.toTodo in *; simpl. by case_bool_decide.
      * rewrite lookup_alter_ne; [done|]. by intros ?%todoKey_inj.
  - rewrite bool_decide_eq_false_2 by (by intros [??]). simpl.
    by eexists.
Qed.

Lemma redis_deleteTodo_Some i s todo :
  RedisService.isConnected s = true →
  readTodo s i = Some todo →
  ∃ s', RedisService.deleteTodo i s = (Ok (Some todo), s') ∧
        RedisService.hashes s' =
          delete (RedisService.todoKey i) (RedisService.hashes s) ∧
        RedisService.todos_all s' = RedisService.todos_all s ∖ {[i]} ∧
        readTodo s' i = None ∧
        (∀ j, j ≠ i → readTodo s' j = readTodo s j) ∧
        RedisService.isConnected s' = true.
Proof.
  intros Hc Hr. unfold RedisService.deleteTodo. rewrite Hc; simpl.
  rewrite redis_getTodoById_connected, Hr by done.
  eexists. split; [done|]. split; [done|]. split; [done|].
  split; [|split; [|done]].
  - unfold readTodo, RedisService.hGetAll; simpl.
    by rewrite lookup_delete_eq.
  - intros j Hj. unfold readTodo, RedisService.hGetAll; simpl.
    rewrite lookup_delete_ne; [done|]. by intros ?%todoKey_inj.
Qed.

Lemma redis_deleteTodo_None i s :
  RedisService.isConnected s = true →
  readTodo s i = None →
  RedisService.deleteTodo i s = (Ok None, s).
Proof.
  intros Hc Hr. unfold RedisService.deleteTodo. rewrite Hc; simpl.
  by rewrite redis_getTodoById_connected, Hr by done.
Qed.
End redis_facts.

(** ** The facade: what every operation keeps *)
Section facade_facts.
Variable sMembers : gset string → list string.
Implicit Types sv : TodoService.t.

Lemma getTodoById_stored sv i :
  available sv → TodoService.getTodoById i sv = Ok (stored sv i).
Proof.
  unfold available, TodoService.getTodoById, stored.
  destruct (TodoService.useRedis sv); [|done].
  intros Hc. by apply redis_getTodoById_connected, Hc.
Qed.

Lemma step_useRedis sv op :
  TodoService.useRedis (TodoService.step sMembers sv op)
  = TodoService.useRedis sv.
Proof.
  destruct op; simpl;
    unfold TodoService.createTodo, TodoService.updateTodo,
           TodoService.deleteTodo, TodoService.getAllTodos;
    destruct (TodoService.useRedis sv) eqn:Hu; simpl;
    repeat case_match; simpl; done.
Qed.

Lemma redis_createTodo_connected todo s :
  RedisService.isConnected (RedisService.createTodo todo s).2
  = RedisService.isConnected s.
Proof.
  unfold RedisService.createTodo.
  by destruct (RedisService.isConnected s) eqn:Hc.
Qed.

Lemma redis_updateTodo_connected i updates now s :
  RedisService.isConnected (RedisService.updateTodo i updates now s).2
  = RedisService.isConnected s.
Proof.
  unfold RedisService.updateTodo.
  destruct (RedisService.isConnected s) eqn:Hc; simpl; [|done].
  by case_match.
Qed.

Lemma redis_deleteTodo_connected i s :
  RedisService.isConnected (RedisService.deleteTodo i s).2
  = RedisService.isConnected s.
Proof.
  unfold RedisService.deleteTodo.
  destruct (RedisService.isConnected s) eqn:Hc; simpl; [|done].
  by repeat case_match.
Qed.

Lemma step_isConnected sv op :
  RedisService.isConnected
    (TodoService.redisService (TodoService.step sMembers sv op))
  = RedisService.isConnected (TodoService.redisService sv).
Proof.
  destruct op as [todo|i updates now|i|]; simpl;
    unfold TodoService.createTodo, TodoService.updateTodo,
           TodoService.deleteTodo, TodoService.getAllTodos;
    destruct (TodoService.useRedis sv); simpl; try done.
  - pose proof (redis_createTodo_connected todo (TodoService.redisService sv)).
    by destruct (RedisService.createTodo _ _).
  - pose proof (redis_updateTodo_connected i updates now
                  (TodoService.redisService sv)).
    by destruct (RedisService.updateTodo _ _ _ _).
  - by repeat case_match.
  - pose proof (redis_deleteTodo_connected i (TodoService.redisService sv)).
    by destruct (RedisService.deleteTodo _ _).
  - by repeat case_match.
Qed.

Lemma step_available sv op :
  available sv → available (TodoService.step sMembers sv op).
Proof.
  unfold available. rewrite step_useRedis, step_isConnected. done.
Qed.

Lemma run_available ops sv :
  available sv → available (TodoService.run sMembers ops sv).
Proof.
  revert sv. induction ops as [|op ops IH]; intros sv Hav; [done|].
  simpl. by apply IH, step_available.
Qed.

Lemma run_app ops1 ops2 sv :
  TodoService.run sMembers (ops1 ++ ops2) sv
  = TodoService.run sMembers ops2 (TodoService.run sMembers ops1 sv).
Proof. unfold TodoService.run. by rewrite foldl_app. Qed.

Lemma stats_of_Permutation l l' : l ≡ₚ l' → stats_of l = stats_of l'.
Proof. intros Hp. unfold stats_of. by rewrite Hp. Qed.

(** The counters are those of the dataset as it is at the call. *)
Lemma getStats_dataset sv :
  sMembers_ok sMembers → available sv →
  TodoService.getStats sMembers sv = Ok (stats_of (dataset sv)).
Proof.
  unfold available, TodoService.getStats, dataset. intros Hperm.
  destruct (TodoService.useRedis sv); [|done].
  intros Hc. specialize (Hc eq_refl). unfold RedisService.getStats.
  rewrite redis_getAllTodos_connected, Hc by done. simpl. f_equal.
  apply stats_of_Permutation. rewrite Array_sort_Permutation.
  unfold records. by rewrite (Hperm _).
Qed.
End facade_facts.

(** ** The volatile backend: the effect of each write *)

Lemma alter_alter (f g : Todo → Todo) (k : nat) (l : list Todo) :
  alter f k (alter g k l) = alter (f ∘ g) k l.
Proof.
  revert k. induction l as [|x l IH]; intros [|k]; simpl; [done..|].
  f_equal. apply IH.
Qed.

Lemma find_by_id_alter_other j (f : Todo → Todo) (k : nat) (l : list Todo)
    todo :
  (∀ x, id (f x) = id x) → l !! k = Some todo → id todo ≠ j →
  find_by_id j (alter f k l) = find_by_id j l.
Proof.
  intros Hf Hk Hj. unfold find_by_id. rewrite list_find_alter_id by done.
  destruct (list_find _ l) as [[k' y]|] eqn:Hfind; simpl; [|done].
  apply list_find_Some in Hfind as (Hk'&?&_).
  case_decide; [|done]. by simplify_eq.
Qed.

Section volatile_facts.
Implicit Types sv : TodoService.t.

Lemma volatile_updateTodo_Some sv i updates now todo :
  TodoService.useRedis sv = false →
  find_by_id i (TodoService.inMemoryTodos sv) = Some todo →
  ∃ l', TodoService.updateTodo i updates now sv
          = (Ok (Some (updated updates now todo)),
             TodoService.with_todos sv l') ∧
        find_by_id i l' = Some (updated updates now todo) ∧
        (∀ j, j ≠ i →
              find_by_id j l' = find_by_id j (TodoService.inMemoryTodos sv)) ∧
        id <$> l' = id <$> TodoService.inMemoryTodos sv.
Proof.
  intros Hu Hf. unfold TodoService.updateTodo. rewrite Hu.
  destruct (find_by_id_cases i (TodoService.inMemoryTodos sv))
    as [(Hn&_)|(k&t0&Hf'&Hk&Hl&Hid&_)]; [congruence|].
  assert (t0 = todo) as -> by congruence. rewrite Hk.
  set (l := TodoService.inMemoryTodos sv) in *.
  set (g := (TodoService.set_updatedAt now ∘
             match upd_completed updates with
             | Some v => TodoService.set_completed v | None => λ x, x end ∘
             match upd_text updates with
             | Some v => TodoService.set_text v | None => λ x, x end)).
  assert (∀ x, id (g x) = id x) as Hg.
  { intros x. unfold g. by destruct (upd_completed updates),
      (upd_text updates). }
  assert (g todo = updated updates now todo) as Hgt.
  { unfold g, updated. by destruct (upd_completed updates),
      (upd_text updates). }
  exists (alter g k l). split; [|split; [|split]].
  - assert (alter (TodoService.set_updatedAt now) k
              match upd_completed updates with
              | Some v =>
                  alter (TodoService.set_completed v) k
                    match upd_text updates with
                    | Some v0 => alter (TodoService.set_text v0) k l
                    | None => l
                    end
              | None =>
                  match upd_text updates with
                  | Some v => alter (TodoService.set_text v) k l
                  | None => l
                  end
              end = alter g k l) as ->.
    { unfold g. destruct (upd_completed updates), (upd_text updates);
        by rewrite ?alter_alter. }
    by rewrite list_lookup_alter_eq, Hl, <- Hgt.
  - rewrite find_by_id_alter_found, Hf, <- Hgt by done. done.
  - intros j Hj. eapply find_by_id_alter_other; [done..|congruence].
  - by apply ids_alter.
Qed.

Lemma volatile_updateTodo_None sv i updates now :
  TodoService.useRedis sv = false →
  find_by_id i (TodoService.inMemoryTodos sv) = None →
  TodoService.updateTodo i updates now sv = (Ok None, sv).
Proof.
  intros Hu Hf. unfold TodoService.updateTodo. rewrite Hu.
  destruct (find_by_id_cases i (TodoService.inMemoryTodos sv))
    as [(_&->&_)|(k&t0&Hf'&_)]; [done|congruence].
Qed.

Lemma volatile_deleteTodo_Some sv i todo :
  TodoService.useRedis sv = false →
  find_by_id i (TodoService.inMemoryTodos sv) = Some todo →
  ∃ k, TodoService.inMemoryTodos sv !! k = Some todo ∧
       findIndex_by_id i (TodoService.inMemoryTodos sv) = Some k ∧
       TodoService.deleteTodo i sv
         = (Ok (Some todo),
            TodoService.with_todos sv
              (delete k (TodoService.inMemoryTodos sv))).
Proof.
  intros Hu Hf. unfold TodoService.deleteTodo. rewrite Hu.
  destruct (find_by_id_cases i (TodoService.inMemoryTodos sv))
    as [(Hn&_)|(k&t0&Hf'&Hk&Hl&Hid&_)]; [congruence|].
  assert (t0 = todo) as -> by congruence. rewrite Hk.
  exists k. by rewrite Hl.
Qed.

Lemma volatile_deleteTodo_None sv i :
  TodoService.useRedis sv = false →
  find_by_id i (TodoService.inMemoryTodos sv) = None →
  TodoService.deleteTodo i sv = (Ok None, sv).
Proof.
  intros Hu Hf. unfold TodoService.deleteTodo. rewrite Hu.
  destruct (find_by_id_cases i (TodoService.inMemoryTodos sv))
    as [(_&->&_)|(k&t0&Hf'&_)]; [done|congruence].
Qed.
End volatile_facts.

(** ** Both backends behind the facade *)
Section either_backend.
Implicit Types sv : TodoService.t.

Lemma updateTodo_stored sv i updates now todo :
  available sv → stored sv i = Some todo →
  ∃ sv', TodoService.updateTodo i updates now sv
           = (Ok (Some (updated updates now todo)), sv') ∧
         stored sv' i = Some (updated updates now todo) ∧
         (∀ j, j ≠ i → stored sv' j = stored sv j) ∧
         TodoService.useRedis sv' = TodoService.useRedis sv ∧
         available sv'.
Proof.
  unfold available, stored. intros Hav Hst.
  destruct (TodoService.useRedis sv) eqn:Hu.
  - destruct (redis_updateTodo_Some i updates now _ todo (Hav eq_refl) Hst)
      as (s'&Hupd&Hr&Hother&_&Hc).
    exists (TodoService.with_redis sv s').
    unfold TodoService.updateTodo. rewrite Hu, Hupd. simpl. by rewrite Hu.
  - destruct (volatile_updateTodo_Some sv i updates now todo Hu Hst)
      as (l'&Hupd&Hf&Hother&_).
    exists (TodoService.with_todos sv l'). rewrite Hupd. simpl.
    by rewrite Hu.
Qed.

Lemma updateTodo_missing sv i updates now :
  available sv → stored sv i = None →
  ∃ sv', TodoService.updateTodo i updates now sv = (Ok None, sv') ∧
         ∀ j, stored sv' j = stored sv j.
Proof.
  unfold available, stored. intros Hav Hst.
  destruct (TodoService.useRedis sv) eqn:Hu.
  - destruct (redis_updateTodo_None i updates now _ (Hav eq_refl) Hst)
      as (s'&Hupd&Hr&_).
    exists (TodoService.with_redis sv s').
    unfold TodoService.updateTodo. rewrite Hu, Hupd. simpl. by rewrite Hu.
  - exists sv. rewrite volatile_updateTodo_None by done. by rewrite Hu.
Qed.

(** In a store keyed by id, an id that reads as no todo and is not the
    empty string has no hash at all. *)
Lemma readTodo_None_no_hash s i :
  keyed_by_id s → i ≠ "" → readTodo s i = None →
  RedisService.hashes s !! RedisService.todoKey i = None.
Proof.
  unfold readTodo, RedisService.hGetAll. intros Hk Hi Hr.
  destruct (RedisService.hashes s !! _) as [h|] eqn:Hh; [|done].
  apply Hk in Hh as Hkey. apply todoKey_inj in Hkey.
  simpl in Hr. unfold RedisService.toTodo in Hr.
  case_bool_decide; [congruence|done].
Qed.

Lemma keyed_by_id_createTodo todo s :
  keyed_by_id s → keyed_by_id (RedisService.createTodo todo s).2.
Proof.
  unfold keyed_by_id, RedisService.createTodo. intros Hk.
  destruct (RedisService.isConnected s); simpl; [|done].
  by apply map_Forall_insert_2.
Qed.

Lemma keyed_by_id_updateTodo i updates now s :
  keyed_by_id s → keyed_by_id (RedisService.updateTodo i updates now s).2.
Proof.
  unfold keyed_by_id, RedisService.updateTodo. intros Hk.
  destruct (RedisService.isConnected s); simpl; [|done].
  case_match; simpl; [done|].
  intros key h. rewrite lookup_alter. case_decide; [|by apply Hk].
  intros (h0&Hh0&->)%fmap_Some. simpl. subst key. by apply Hk in Hh0.
Qed.

Lemma keyed_by_id_deleteTodo i s :
  keyed_by_id s → keyed_by_id (RedisService.deleteTodo i s).2.
Proof.
  unfold keyed_by_id, RedisService.deleteTodo. intros Hk.
  destruct (RedisService.isConnected s); simpl; [|done].
  repeat case_match; simpl; try done.
  by apply map_Forall_delete.
Qed.

Lemma createTodo_fresh sv todo :
  available sv → well_keyed sv → id todo ≠ "" →
  stored sv (id todo) = None →
  ∃ sv', TodoService.createTodo todo sv = (Ok todo, sv') ∧
         stored sv' (id todo) = Some (read_back sv todo) ∧
         (∀ j, j ≠ id todo → stored sv' j = stored sv j) ∧
         TodoService.useRedis sv' = TodoService.useRedis sv ∧
         available sv' ∧ well_keyed sv'.
Proof.
  unfold available, well_keyed, stored, read_back. intros Hav Hwk Hid Hst.
  unfold TodoService.createTodo.
  destruct (TodoService.useRedis sv) eqn:Hu.
  - specialize (Hav eq_refl). specialize (Hwk eq_refl).
    set (s := TodoService.redisService sv) in *.
    pose proof (readTodo_createTodo todo (id todo) s Hav) as Hsame.
    pose proof (λ j, readTodo_createTodo todo j s Hav) as Hother.
    pose proof (redis_createTodo_connected todo s) as Hc.
    pose proof (keyed_by_id_createTodo todo s Hwk) as Hk'.
    assert ((RedisService.createTodo todo s).1 = Ok todo) as Hres.
    { unfold RedisService.createTodo. by rewrite Hav. }
    destruct (RedisService.createTodo todo s) as [r s'].
    simpl in *. subst r. eexists. split; [done|]. simpl. rewrite Hu.
    split; [|split; [|split; [done|split; [congruence|done]]]].
    + rewrite Hsame, decide_True by done.
      rewrite readTodo_None_no_hash by done. simpl.
      unfold RedisService.toTodo; simpl.
      rewrite bool_decide_eq_false_2 by done.
      by rewrite toString_true.
    + intros j Hj. by rewrite Hother, decide_False.
  - eexists. split; [done|]. simpl. rewrite Hu.
    split; [|split; [|done]].
    + by rewrite find_by_id_snoc, Hst, decide_True.
    + intros j Hj. rewrite find_by_id_snoc.
      destruct (find_by_id j _); [done|]. by rewrite decide_False.
Qed.

Lemma deleteTodo_missing sv i :
  available sv → stored sv i = None →
  TodoService.deleteTodo i sv = (Ok None, sv).
Proof.
  unfold available, stored. intros Hav Hst.
  destruct (TodoService.useRedis sv) eqn:Hu.
  - unfold TodoService.deleteTodo.
    rewrite Hu, redis_deleteTodo_None by auto.
    by destruct sv.
  - by apply volatile_deleteTodo_None.
Qed.

Lemma deleteTodo_stored sv i todo :
  available sv → unique_ids sv → stored sv i = Some todo →
  ∃ sv', TodoService.deleteTodo i sv = (Ok (Some todo), sv') ∧
         stored sv' i = None ∧
         (∀ j, j ≠ i → stored sv' j = stored sv j) ∧
         TodoService.useRedis sv' = TodoService.useRedis sv ∧
         available sv' ∧
         (TodoService.useRedis sv = true →
          (i ∉ RedisService.todos_all (TodoService.redisService sv')) ∧
          RedisService.hashes (TodoService.redisService sv')
            !! RedisService.todoKey i = None) ∧
         (TodoService.useRedis sv = false →
          TodoService.inMemoryTodos sv ≡ₚ
            todo :: TodoService.inMemoryTodos sv' ∧
          Forall (λ x, id x ≠ i) (TodoService.inMemoryTodos sv')).
Proof.
  unfold available, unique_ids, stored. intros Hav Hnd Hst.
  destruct (TodoService.useRedis sv) eqn:Hu.
  - destruct (redis_deleteTodo_Some i _ todo (Hav eq_refl) Hst)
      as (s'&Hdel&Hh&Hidx&Hr&Hother&Hc).
    exists (TodoService.with_redis sv s').
    unfold TodoService.deleteTodo. rewrite Hu, Hdel. simpl. rewrite Hu.
    do 5 (split; [done|]). split; [|done]. intros _. split.
    + rewrite Hidx. apply not_elem_of_difference. right.
      by apply elem_of_singleton.
    + rewrite Hh. apply lookup_delete_eq.
  - destruct (volatile_deleteTodo_Some sv i todo Hu Hst)
      as (k&Hk&Hidx&Hdel).
    set (l := TodoService.inMemoryTodos sv) in *.
    specialize (Hnd eq_refl).
    assert (find_by_id i (delete k l) = None) as Hgone
      by (by apply find_by_id_delete).
    assert (l ≡ₚ todo :: delete k l) as Hp by (by apply delete_Permutation).
    exists (TodoService.with_todos sv (delete k l)).
    split; [exact Hdel|]. simpl. rewrite Hu.
    split; [done|]. split; [|split; [done|split; [done|split; [done|]]]].
    + intros j Hj. rewrite (find_by_id_Permutation j l _ Hnd Hp).
      apply find_by_id_Some in Hst as [_ Hid].
      rewrite find_by_id_cons. by rewrite decide_False by congruence.
    + intros _. split; [done|]. by apply find_by_id_None.
Qed.
End either_backend.

Lemma getTodoById_Ok sv i x :
  TodoService.getTodoById i sv = Ok x → available sv ∧ stored sv i = x.
Proof.
  unfold TodoService.getTodoById, RedisService.getTodoById, available, stored.
  destruct (TodoService.useRedis sv); [|by intros [= <-]].
  destruct (RedisService.isConnected _); simpl; [|done].
  by intros [= <-].
Qed.

Lemma updateTodo_get sv i todo updates now :
  TodoService.getTodoById i sv = Ok (Some todo) →
  ∃ sv', TodoService.updateTodo i updates now sv
           = (Ok (Some (updated updates now todo)), sv') ∧
         TodoService.getTodoById i sv' = Ok (Some (updated updates now todo)).
Proof.
  intros [Hav Hst]%getTodoById_Ok.
  destruct (updateTodo_stored sv i updates now todo Hav Hst)
    as (sv'&Hupd&Hst'&_&_&Hav').
  exists sv'. split; [done|]. by rewrite getTodoById_stored, Hst'.
Qed.

(** ** Listing *)
Section listing_facts.
Variable sMembers : gset string → list string.
Hypothesis sMembers_perm : sMembers_ok sMembers.
Implicit Types sv : TodoService.t.

(** [list()] answers with the dataset, newest first; the volatile backend
    keeps the sorted array. *)
Lemma getAllTodos_dataset sv :
  available sv →
  ∃ l, TodoService.getAllTodos sMembers sv
         = (Ok l, if TodoService.useRedis sv then sv
                  else TodoService.with_todos sv l) ∧
       StronglySorted newerFirst l ∧ l ≡ₚ dataset sv.
Proof.
  unfold available, TodoService.getAllTodos, dataset. intros Hav.
  destruct (TodoService.useRedis sv) eqn:Hu.
  - destruct (redis_getAllTodos_records sMembers (TodoService.redisService sv)
                sMembers_perm (Hav eq_refl)) as (l&Hl&Hs&Hp).
    exists l. by rewrite Hl.
  - eexists. split; [done|].
    split; [apply Array_sort_sorted|apply Array_sort_Permutation].
Qed.

(** Reading twice in a row gives the same listing. *)
Lemma getAllTodos_again sv l sv' :
  TodoService.getAllTodos sMembers sv = (Ok l, sv') →
  TodoService.getAllTodos sMembers sv' = (Ok l, sv').
Proof.
  unfold TodoService.getAllTodos.
  destruct (TodoService.useRedis sv) eqn:Hu.
  - intros [= Hl <-]. by rewrite Hu, Hl.
  - intros [= <- <-]. simpl. rewrite Hu.
    by rewrite Array_sort_fixed by apply Array_sort_sorted.
Qed.

(** The todos read from a store keyed by id carry each id once. *)
Lemma records_NoDup s : keyed_by_id s → NoDup (id <$> records s).
Proof.
  intros Hk. unfold records.
  pose proof (NoDup_elements (RedisService.todos_all s)) as Hnd.
  induction Hnd as [|i ids Hi Hnd IH]; csimpl; [constructor|].
  destruct (readTodo s i) as [todo|] eqn:Hr; csimpl; [|done].
  constructor; [|done]. intros (todo'&Hid&Hin)%list_elem_of_fmap.
  apply list_elem_of_omap in Hin as (j&Hj&Hrj).
  apply readTodo_id in Hr; [|done]. apply readTodo_id in Hrj; [|done].
  congruence.
Qed.

Lemma records_elem_of s todo :
  todo ∈ records s ↔
  ∃ i, i ∈ RedisService.todos_all s ∧ readTodo s i = Some todo.
Proof.
  unfold records. rewrite list_elem_of_omap.
  by setoid_rewrite elem_of_elements.
Qed.
End listing_facts.

(** ** One operation at a time *)
Section step_facts.
Variable sMembers : gset string → list string.
Implicit Types sv : TodoService.t.

Lemma step_well_keyed sv op :
  well_keyed sv → well_keyed (TodoService.step sMembers sv op).
Proof.
  unfold well_keyed. rewrite step_useRedis. intros Hwk Hu.
  specialize (Hwk Hu).
  destruct op as [todo|i updates now|i|]; simpl;
    unfold TodoService.createTodo, TodoService.updateTodo,
           TodoService.deleteTodo, TodoService.getAllTodos;
    rewrite Hu; simpl; [| | |done].
  - pose proof (keyed_by_id_createTodo todo _ Hwk).
    by destruct (RedisService.createTodo _ _).
  - pose proof (keyed_by_id_updateTodo i updates now _ Hwk).
    by destruct (RedisService.updateTodo _ _ _ _).
  - pose proof (keyed_by_id_deleteTodo i _ Hwk).
    by destruct (RedisService.deleteTodo _ _).
Qed.

Lemma step_unique_ids sv op :
  unique_ids sv →
  (∀ todo, op = TodoService.Create todo → stored sv (id todo) = None) →
  unique_ids (TodoService.step sMembers sv op).
Proof.
  unfold unique_ids. rewrite step_useRedis. intros Hnd Hfresh Hu.
  specialize (Hnd Hu).
  destruct op as [todo|i updates now|i|]; simpl;
    unfold TodoService.createTodo, TodoService.updateTodo,
           TodoService.deleteTodo, TodoService.getAllTodos;
    rewrite Hu; simpl.
  - specialize (Hfresh todo eq_refl). unfold stored in Hfresh.
    rewrite Hu in Hfresh. apply find_by_id_None in Hfresh.
    rewrite fmap_app. apply NoDup_app. split; [done|].
    split; [|apply NoDup_singleton].
    intros x (y&Hxy&Hy)%list_elem_of_fmap Hx%list_elem_of_singleton.
    rewrite Forall_forall in Hfresh. apply (Hfresh y Hy). congruence.
  - destruct (findIndex_by_id i _) as [k|]; simpl; [|done].
    rewrite ids_alter by done.
    destruct (upd_completed updates), (upd_text updates);
      by rewrite ?ids_alter by done.
  - destruct (findIndex_by_id i _) as [k|]; simpl; [|done].
    eapply sublist_NoDup; [done|]. rewrite list_fmap_delete.
    apply sublist_delete.
  - by rewrite Array_sort_Permutation.
Qed.

Lemma step_stored_other sv op j :
  available sv → unique_ids sv → target op ≠ Some j →
  stored (TodoService.step sMembers sv op) j = stored sv j.
Proof.
  intros Hav Hnd Hj.
  destruct op as [todo|i updates now|i|]; simpl in *.
  - unfold stored, TodoService.createTodo, available in *.
    destruct (TodoService.useRedis sv) eqn:Hu.
    + pose proof (readTodo_createTodo todo j _ (Hav eq_refl)) as Hr.
      destruct (RedisService.createTodo _ _) as [r s']. simpl in *.
      rewrite Hu, Hr. rewrite decide_False; [done|congruence].
    + simpl. rewrite Hu, find_by_id_snoc.
      destruct (find_by_id j _); [done|]. rewrite decide_False; [done|].
      congruence.
  - destruct (stored sv i) as [todo|] eqn:Hst.
    + destruct (updateTodo_stored sv i updates now todo Hav Hst)
        as (sv'&->&_&Hother&_). simpl. apply Hother. congruence.
    + destruct (updateTodo_missing sv i updates now Hav Hst)
        as (sv'&->&Hother). simpl. apply Hother.
  - destruct (stored sv i) as [todo|] eqn:Hst.
    + destruct (deleteTodo_stored sv i todo Hav Hnd Hst)
        as (sv'&->&_&Hother&_). simpl. apply Hother. congruence.
    + by rewrite deleteTodo_missing.
  - unfold stored, TodoService.getAllTodos, unique_ids in *.
    destruct (TodoService.useRedis sv) eqn:Hu; simpl; rewrite Hu; [done|].
    symmetry. apply find_by_id_Permutation; [by auto|].
    by rewrite Array_sort_Permutation.
Qed.

(** An operation other than [create] brings no id into the dataset. *)
Lemma step_stored_None sv op j :
  available sv → unique_ids sv →
  (∀ todo, op = TodoService.Create todo → id todo ≠ j) →
  stored sv j = None →
  stored (TodoService.step sMembers sv op) j = None.
Proof.
  intros Hav Hnd Hcreate Hst.
  destruct (decide (target op = Some j)) as [Ht|Ht];
    [|by rewrite step_stored_other].
  destruct op as [todo|i updates now|i|]; simpl in *; simplify_eq.
  - by destruct (Hcreate todo).
  - destruct (updateTodo_missing sv j updates now Hav Hst)
      as (sv'&->&Hother). simpl. by rewrite Hother.
  - by rewrite deleteTodo_missing.
Qed.

Lemma step_delete_gone sv i :
  available sv → unique_ids sv →
  stored (TodoService.step sMembers sv (TodoService.Delete i)) i = None.
Proof.
  intros Hav Hnd. simpl. destruct (stored sv i) as [todo|] eqn:Hst.
  - by destruct (deleteTodo_stored sv i todo Hav Hnd Hst) as (sv'&->&?&_).
  - by rewrite deleteTodo_missing.
Qed.

Lemma step_sound sv used op :
  sound sv → covers used sv → fresh_op used op →
  sound (TodoService.step sMembers sv op) ∧
  covers (op_used used op) (TodoService.step sMembers sv op).
Proof.
  intros (Hav&Hwk&Hnd) Hcov Hfresh.
  assert (∀ todo, op = TodoService.Create todo → stored sv (id todo) = None)
    as Hnew.
  { intros todo ->. simpl in Hfresh. apply eq_None_not_Some.
    intros Hs. by apply Hfresh, Hcov. }
  split; [split; [by apply step_available|
                  split; [by apply step_well_keyed|
                          by apply step_unique_ids]]|].
  intros j Hj. destruct (decide (j ∈ op_used used op)) as [|Hnin]; [done|].
  exfalso. assert (stored sv j = None) as Hst.
  { apply eq_None_not_Some. intros Hs. apply Hnin.
    destruct op; simpl; try apply elem_of_cons; auto. }
  rewrite step_stored_None in Hj; [by destruct Hj|done..| |done].
  intros todo -> <-. apply Hnin. simpl. by left.
Qed.

Lemma run_sound ops sv used :
  sound sv → covers used sv → fresh_creates used ops →
  sound (TodoService.run sMembers ops sv) ∧
  covers (used_after used ops) (TodoService.run sMembers ops sv).
Proof.
  revert sv used. induction ops as [|op ops IH]; intros sv used Hs Hc Hf;
    [done|].
  destruct Hf as [Hop Hrest].
  destruct (step_sound sv used op Hs Hc Hop) as [Hs' Hc'].
  simpl. by apply IH.
Qed.

(** Once an id that was handed out is out of the dataset, it stays out. *)
Lemma run_stays_gone ops sv used i :
  sound sv → covers used sv → fresh_creates used ops →
  i ∈ used → stored sv i = None →
  stored (TodoService.run sMembers ops sv) i = None.
Proof.
  revert sv used. induction ops as [|op ops IH];
    intros sv used Hs Hc Hf Hi Hst; [done|].
  destruct Hf as [Hop Hrest].
  destruct (step_sound sv used op Hs Hc Hop) as [Hs' Hc'].
  simpl. apply (IH _ (op_used used op)); try done.
  - destruct op; simpl; try apply elem_of_cons; auto.
  - destruct Hs as (Hav&_&Hnd). apply step_stored_None; try done.
    intros todo -> <-. by apply Hop.
Qed.

Lemma fresh_creates_app used ops1 ops2 :
  fresh_creates used (ops1 ++ ops2) ↔
  fresh_creates used ops1 ∧ fresh_creates (used_after used ops1) ops2.
Proof.
  revert used. induction ops1 as [|op ops1 IH]; intros used; simpl.
  - tauto.
  - rewrite IH. tauto.
Qed.
End step_facts.

(** ** The dataset after a create *)

Lemma omap_agree {A B} (f g : A → option B) (l : list A) :
  (∀ x, x ∈ l → f x = g x) → omap f l = omap g l.
Proof.
  induction l as [|x l IH]; intros Hfg; [done|]. csimpl.
  rewrite (Hfg x) by left. rewrite IH; [done|].
  intros y Hy. apply Hfg. by right.
Qed.

(** The todos behind a set of ids one of which, [i], is set apart. *)
Lemma omap_elements_apart (f : string → option Todo) (X : gset string) i :
  omap f (elements ({[i]} ∪ X)) ≡ₚ
  match f i with Some todo => [todo] | None => [] end
    ++ omap f (elements (X ∖ {[i]})).
Proof.
  assert ({[i]} ∪ X = {[i]} ∪ X ∖ {[i]}) as ->.
  { apply set_eq. intros x. rewrite !elem_of_union, elem_of_difference,
      elem_of_singleton. destruct (decide (x = i)); tauto. }
  rewrite elements_union_singleton.
  - csimpl. by destruct (f i).
  - rewrite elem_of_difference, elem_of_singleton. tauto.
Qed.

Lemma records_createTodo todo s :
  RedisService.isConnected s = true → keyed_by_id s → id todo ≠ "" →
  readTodo s (id todo) = None →
  records (RedisService.createTodo todo s).2 ≡ₚ
  {| id := id todo; text := text todo; completed := completed todo;
     createdAt := createdAt todo; updatedAt := Some (createdAt todo) |}
    :: records s.
Proof.
  intros Hc Hk Hid Hr. unfold records.
  rewrite todos_all_createTodo by done.
  rewrite omap_elements_apart.
  rewrite readTodo_createTodo, decide_True by done.
  rewrite readTodo_None_no_hash by done. simpl.
  unfold RedisService.toTodo; simpl.
  rewrite bool_decide_eq_false_2 by done. rewrite toString_true. simpl.
  constructor.
  assert (omap (readTodo (RedisService.createTodo todo s).2)
            (elements (RedisService.todos_all s ∖ {[id todo]}))
          = omap (readTodo s)
              (elements (RedisService.todos_all s ∖ {[id todo]}))) as ->.
  { apply omap_agree. intros j Hj.
    apply elem_of_elements, elem_of_difference in Hj as [_ Hj].
    rewrite elem_of_singleton in Hj.
    by rewrite readTodo_createTodo, decide_False. }
  destruct (decide (id todo ∈ RedisService.todos_all s)) as [Hin|Hnin].
  - pose proof (omap_elements_apart (readTodo s) (RedisService.todos_all s)
                  (id todo)) as Hp.
    assert ({[id todo]} ∪ RedisService.todos_all s
            = RedisService.todos_all s) as Heq.
    { apply set_eq. intros x. rewrite elem_of_union, elem_of_singleton.
      split; [|tauto]. intros [->|?]; done. }
    rewrite Heq, Hr in Hp. by rewrite Hp.
  - assert (RedisService.todos_all s ∖ {[id todo]}
            = RedisService.todos_all s) as ->; [|done].
    apply set_eq. intros x. rewrite elem_of_difference, elem_of_singleton.
    split; [tauto|]. intros ?. split; [done|]. by intros ->.
Qed.

Lemma dataset_createTodo sv todo :
  available sv → well_keyed sv → id todo ≠ "" →
  stored sv (id todo) = None →
  dataset (TodoService.createTodo todo sv).2 ≡ₚ
  read_back sv todo :: dataset sv.
Proof.
  unfold available, well_keyed, stored, dataset, read_back.
  unfold TodoService.createTodo. intros Hav Hwk Hid Hst.
  destruct (TodoService.useRedis sv) eqn:Hu.
  - pose proof (records_createTodo todo _ (Hav eq_refl) (Hwk eq_refl)
                  Hid Hst) as Hp.
    destruct (RedisService.createTodo _ _) as [r s']. simpl in *.
    by rewrite Hu.
  - simpl. rewrite Hu. by rewrite Permutation_app_comm.
Qed.

Lemma dataset_NoDup sv : sound sv → NoDup (id <$> dataset sv).
Proof.
  unfold sound, well_keyed, unique_ids, dataset. intros (_&Hwk&Hnd).
  destruct (TodoService.useRedis sv); [|by auto].
  by apply records_NoDup, Hwk.
Qed.

Lemma empty_dataset_facts sv :
  empty_dataset sv →
  well_keyed sv ∧ unique_ids sv ∧ (∀ j, stored sv j = None) ∧ dataset sv = [].
Proof.
  unfold empty_dataset, well_keyed, unique_ids, stored, dataset, records,
    keyed_by_id, readTodo, RedisService.hGetAll.
  destruct (TodoService.useRedis sv).
  - intros [-> ->]. split; [intros _; apply map_Forall_empty|].
    split; [done|]. split; [|by rewrite elements_empty].
    intros j. by rewrite lookup_empty.
  - intros ->. split; [done|]. split; [intros _; constructor|]. done.
Qed.

Section listed_facts.
Variable sMembers : gset string → list string.
Hypothesis sMembers_perm : sMembers_ok sMembers.

(** Every listed Item is found by [get] under its id. *)
Lemma listed_is_stored sv l sv' todo :
  available sv → well_keyed sv →
  TodoService.getAllTodos sMembers sv = (Ok l, sv') → todo ∈ l →
  ∃ todo', TodoService.getTodoById (id todo) sv' = Ok (Some todo') ∧
           id todo' = id todo ∧ todo' ∈ l ∧
           (unique_ids sv → todo' = todo).
Proof.
  intros Hav Hwk Hget Hin.
  destruct (getAllTodos_dataset sMembers sMembers_perm sv Hav)
    as (l0&Hget0&Hsorted&Hp).
  rewrite Hget in Hget0. injection Hget0 as -> ->.
  unfold available, well_keyed, unique_ids, dataset in *.
  unfold TodoService.getTodoById.
  destruct (TodoService.useRedis sv) eqn:Hu; simpl; rewrite ?Hu.
  - rewrite redis_getTodoById_connected by auto.
    rewrite Hp in Hin. apply records_elem_of in Hin as (i&Hi&Hr).
    pose proof (readTodo_id _ _ _ (Hwk eq_refl) Hr) as Hid.
    exists todo. rewrite Hid, Hr. do 2 (split; [done|]). split; [|done].
    rewrite Hp. apply records_elem_of. by exists i.
  - destruct (find_by_id_elem_of _ _ Hin) as [todo' Hf].
    exists todo'. rewrite Hf. apply find_by_id_Some in Hf as Hf'.
    destruct Hf' as [Hin' Hid]. do 3 (split; [done|]).
    intros Hnd. eapply NoDup_ids_eq; [|done..].
    rewrite Hp. by apply Hnd.
Qed.

(** An index entry without a hash leaves no trace in the listing. *)
Lemma ghost_entry_skipped s i :
  RedisService.isConnected s = true →
  i ∈ RedisService.todos_all s →
  RedisService.hashes s !! RedisService.todoKey i = None →
  ∃ l, RedisService.getAllTodos sMembers s = Ok l ∧
       l ≡ₚ records (RedisService.sRem i s) ∧
       RedisService.getTodoById i s = Ok None.
Proof.
  intros Hc Hi Hh.
  destruct (redis_getAllTodos_records sMembers s sMembers_perm Hc)
    as (l&Hl&_&Hp).
  assert (readTodo s i = None) as Hr.
  { unfold readTodo, RedisService.hGetAll. by rewrite Hh. }
  exists l. split; [done|]. split.
  - rewrite Hp. unfold records at 1.
    assert (RedisService.todos_all s = {[i]} ∪ RedisService.todos_all s)
      as ->.
    { apply set_eq. intros x. rewrite elem_of_union, elem_of_singleton.
      split; [tauto|]. intros [->|?]; done. }
    by rewrite omap_elements_apart, Hr.
  - by rewrite redis_getTodoById_connected, Hr.
Qed.

(** Three Items created in an empty dataset, listed. *)
Lemma three_created_listed sv A B C :
  available sv → empty_dataset sv →
  id A ≠ "" → id B ≠ "" → id C ≠ "" →
  id A ≠ id B → id A ≠ id C → id B ≠ id C →
  createdAt A < createdAt B → createdAt B < createdAt C →
  (TodoService.getAllTodos sMembers
     (TodoService.run sMembers
        [TodoService.Create A; TodoService.Create B; TodoService.Create C]
        sv)).1
  = Ok (read_back sv <$> [C; B; A]).
Proof.
  intros Hav (Hwk&_&Hnone&Hempty)%empty_dataset_facts
    HA HB HC HAB HAC HBC HtAB HtBC. simpl.
  pose proof (dataset_createTodo sv A Hav Hwk HA (Hnone _)) as Hd1.
  destruct (createTodo_fresh sv A Hav Hwk HA (Hnone _))
    as (sv1&Hc1&_&Ho1&Hu1&Hav1&Hwk1).
  rewrite Hc1 in *. simpl in *.
  assert (stored sv1 (id B) = None) as HB1 by (by rewrite Ho1).
  pose proof (dataset_createTodo sv1 B Hav1 Hwk1 HB HB1) as Hd2.
  destruct (createTodo_fresh sv1 B Hav1 Hwk1 HB HB1)
    as (sv2&Hc2&_&Ho2&Hu2&Hav2&Hwk2).
  rewrite Hc2 in *. simpl in *.
  assert (stored sv2 (id C) = None) as HC2
    by (by rewrite Ho2, Ho1 by done).
  pose proof (dataset_createTodo sv2 C Hav2 Hwk2 HC HC2) as Hd3.
  destruct (createTodo_fresh sv2 C Hav2 Hwk2 HC HC2)
    as (sv3&Hc3&_&_&_&Hav3&_).
  rewrite Hc3 in *. simpl in *.
  destruct (getAllTodos_dataset sMembers sMembers_perm sv3 Hav3)
    as (l&->&Hsorted&Hp). simpl. f_equal.
  assert (read_back sv2 = read_back sv ∧ read_back sv1 = read_back sv)
    as [E2 E1].
  { unfold read_back. by rewrite Hu2, Hu1. }
  rewrite Hd3, Hd2, Hd1, Hempty, E2, E1 in Hp.
  assert (∀ X, createdAt (read_back sv X) = createdAt X) as Hcr.
  { intros X. unfold read_back. by destruct (TodoService.useRedis sv). }
  symmetry. apply newerFirst_unique; [| |done|by symmetry].
  - intros x y Hx Hy. rewrite !elem_of_cons in Hx, Hy.
    destruct Hx as [->|[->|[->|Hx]]]; [| | |by inversion Hx];
      destruct Hy as [->|[->|[->|Hy]]]; try done; try (by inversion Hy);
      rewrite !Hcr; lia.
  - unfold newerFirst. repeat constructor; rewrite !Hcr; lia.
Qed.
End listed_facts.

(** ** Operations aimed at other ids *)
Section frame_facts.
Variable sMembers : gset string → list string.

Lemma run_stored_other ops sv used j :
  sound sv → covers used sv → fresh_creates used ops →
  Forall (λ op, target op ≠ Some j) ops →
  stored (TodoService.run sMembers ops sv) j = stored sv j.
Proof.
  revert sv used. induction ops as [|op ops IH];
    intros sv used Hs Hc Hf Hops; [done|].
  destruct Hf as [Hop Hrest]. apply Forall_cons in Hops as [Hj Hops].
  destruct (step_sound sMembers sv used op Hs Hc Hop) as [Hs' Hc'].
  simpl. rewrite (IH _ (op_used used op)) by done.
  destruct Hs as (?&_&?). by apply step_stored_other.
Qed.
End frame_facts.

(** ** Starting the service *)
Section start_facts.
Variable sMembers : gset string → list string.
Hypothesis sMembers_perm : sMembers_ok sMembers.

Lemma sMembers_empty : sMembers ∅ = [].
Proof.
  apply Permutation_nil_r. rewrite (sMembers_perm ∅).
  by rewrite elements_empty.
Qed.

Lemma createEach_cons todo rest s :
  RedisService.isConnected s = true →
  RedisService.createEach (todo :: rest) s
  = RedisService.createEach rest (RedisService.createTodo todo s).2.
Proof.
  intros Hc. simpl. unfold RedisService.createTodo. by rewrite Hc.
Qed.

Lemma initializeDefaultTodos_empty v1 v2 s1 s2 s d1 d2 :
  RedisService.isConnected s = true → RedisService.todos_all s = ∅ →
  RedisService.defaultTodos v1 v2 s1 s2 = [d1; d2] →
  RedisService.initializeDefaultTodos sMembers v1 v2 s1 s2 s
  = (RedisService.createTodo d2 (RedisService.createTodo d1 s).2).2.
Proof.
  intros Hc He Hd.
  unfold RedisService.initializeDefaultTodos, RedisService.getAllTodos.
  rewrite Hc, He, sMembers_empty, Hd. simpl negb. cbv iota.
  rewrite !bool_decide_eq_true_2 by done.
  rewrite createEach_cons by done.
  rewrite createEach_cons by (by rewrite redis_createTodo_connected).
  done.
Qed.

(** A first connection to a server without data leaves the two default
    todos, and nothing else. *)
Lemma connect_fresh v1 v2 s1 s2 :
  v1 ≠ "" → v2 ≠ "" → v1 ≠ v2 →
  ∃ s, RedisService.connect sMembers true v1 v2 s1 s2 RedisService.fresh
         = (true, s) ∧
       RedisService.isConnected s = true ∧ keyed_by_id s ∧
       records s ≡ₚ
         [ {| id := v2; text := "Set up CI/CD pipeline with Redis database";
              completed := true; createdAt := s2; updatedAt := Some s2 |};
           {| id := v1;
              text := "Welcome to your DevOps To-Do App with Redis!";
              completed := false; createdAt := s1; updatedAt := Some s1 |} ].
Proof.
  intros Hv1 Hv2 Hv12. eexists. split; [reflexivity|].
  set (s0 := {| RedisService.isConnected := true;
                RedisService.todos_all := RedisService.todos_all
                                            RedisService.fresh;
                RedisService.hashes := RedisService.hashes
                                         RedisService.fresh |}).
  erewrite (initializeDefaultTodos_empty v1 v2 s1 s2 s0);
    [|done|done|reflexivity].
  set (d1 := {| id := v1; completed := false |}).
  set (d2 := {| id := v2; completed := true |}).
  assert (RedisService.isConnected s0 = true) as Hc0 by done.
  assert (keyed_by_id s0) as Hk0 by apply map_Forall_empty.
  assert (∀ j, readTodo s0 j = None) as Hr0.
  { intros j. unfold readTodo, RedisService.hGetAll. simpl.
    by rewrite lookup_empty. }
  pose proof (records_createTodo d1 s0 Hc0 Hk0 Hv1 (Hr0 _)) as Hrec1.
  pose proof (keyed_by_id_createTodo d1 s0 Hk0) as Hk1.
  pose proof (redis_createTodo_connected d1 s0) as Hc1.
  pose proof (readTodo_createTodo d1 v2 s0 Hc0) as Hr1.
  rewrite decide_False, Hr0 in Hr1 by done.
  rewrite Hc0 in Hc1.
  set (s1' := (RedisService.createTodo d1 s0).2) in *.
  pose proof (records_createTodo d2 s1' Hc1 Hk1 Hv2 Hr1) as Hrec2.
  pose proof (keyed_by_id_createTodo d2 s1' Hk1) as Hk2.
  pose proof (redis_createTodo_connected d2 s1') as Hc2.
  rewrite Hc1 in Hc2.
  split; [done|]. split; [done|].
  rewrite Hrec2, Hrec1. unfold records. simpl. by rewrite elements_empty.
Qed.
Lemma createEach_keeps todos s :
  keyed_by_id s →
  keyed_by_id (RedisService.createEach todos s) ∧
  RedisService.isConnected (RedisService.createEach todos s)
  = RedisService.isConnected s.
Proof.
  revert s. induction todos as [|todo todos IH]; intros s Hk; [done|].
  simpl. pose proof (keyed_by_id_createTodo todo s Hk) as Hk'.
  pose proof (redis_createTodo_connected todo s) as Hc'.
  destruct (RedisService.createTodo todo s) as [[created|e] s']; simpl in *.
  - destruct (IH s' Hk') as [? ->]. done.
  - done.
Qed.

(** Whatever the server holds, as long as it is keyed by id, and whether
    or not it can be reached, the service starts in good order. *)
Lemma start_sound reachable u1 u2 t1 t2 v1 v2 s1 s2 r :
  keyed_by_id r → u1 ≠ u2 →
  sound (TodoService.start sMembers reachable u1 u2 t1 t2 v1 v2 s1 s2 r).
Proof.
  intros Hk Hu.
  unfold sound, available, well_keyed, unique_ids, TodoService.start,
    TodoService.onListen, TodoService.loaded, RedisService.connect.
  cbn [TodoService.redisService TodoService.inMemoryTodos].
  destruct reachable; cbn [TodoService.useRedis TodoService.redisService
                           TodoService.inMemoryTodos].
  - set (s0 := {| RedisService.isConnected := true |}).
    assert (keyed_by_id s0) as Hk0 by done.
    unfold RedisService.initializeDefaultTodos.
    destruct (createEach_keeps (RedisService.defaultTodos v1 v2 s1 s2) s0 Hk0)
      as [Hk1 Hc1].
    split; [|split; [|done]]; intros _; repeat case_match; done.
  - split; [done|]. split; [done|]. intros _. simpl.
    apply NoDup_cons. split; [|apply NoDup_singleton].
    by rewrite list_elem_of_singleton.
Qed.
End start_facts.

(** ** The properties of the specification *)

(** C1 (as amended).  Starting with an unreachable durable backend yields
    a Volatile-active service whose [list()] returns two seeded default
    Items with the same [completed] values as the two Items that the
    first-run seeding of a fresh durable store produces (a pending
    welcome Item and a completed pipeline Item), but not with the same
    text: the durable seeds read "... with Redis!" and "... with Redis
    database".  The two listings are in the same order when the two seeds
    of each backend carry strictly increasing [createdAt]. *)
Theorem fallback_seeding sMembers u1 u2 t1 t2 v1 v2 s1 s2 r :
  sMembers_ok sMembers → v1 ≠ "" → v2 ≠ "" → v1 ≠ v2 →
  ∃ lv ld,
    let volatile :=
      TodoService.start sMembers false u1 u2 t1 t2 v1 v2 s1 s2 r in
    let durable :=
      TodoService.start sMembers true u1 u2 t1 t2 v1 v2 s1 s2
        RedisService.fresh in
    TodoService.useRedis volatile = false ∧
    TodoService.useRedis durable = true ∧
    (TodoService.getAllTodos sMembers volatile).1 = Ok lv ∧
    (TodoService.getAllTodos sMembers durable).1 = Ok ld ∧
    shown <$> lv ≡ₚ [("Welcome to your DevOps To-Do App!", false);
                     ("Set up CI/CD pipeline", true)] ∧
    shown <$> ld ≡ₚ [("Welcome to your DevOps To-Do App with Redis!", false);
                     ("Set up CI/CD pipeline with Redis database", true)] ∧
    completed <$> lv ≡ₚ completed <$> ld ∧
    (t1 < t2 → s1 < s2 →
     shown <$> lv = [("Set up CI/CD pipeline", true);
                     ("Welcome to your DevOps To-Do App!", false)] ∧
     shown <$> ld = [("Set up CI/CD pipeline with Redis database", true);
                     ("Welcome to your DevOps To-Do App with Redis!", false)]).
Proof.
  intros Hperm Hv1 Hv2 Hv12.
  destruct (connect_fresh sMembers Hperm v1 v2 s1 s2 Hv1 Hv2 Hv12)
    as (s&Hconn&Hc&Hk&Hrec).
  destruct (redis_getAllTodos_records sMembers s Hperm Hc)
    as (ld&Hld&Hsorted&Hp).
  exists (Array_sort byCreatedAtDesc (TodoService.initialTodos u1 u2 t1 t2)), ld.
  unfold TodoService.start, TodoService.onListen, TodoService.loaded.
  cbn [TodoService.redisService]. rewrite Hconn.
  unfold TodoService.getAllTodos. cbn [TodoService.useRedis
    TodoService.redisService TodoService.inMemoryTodos
    RedisService.connect fst].
  split; [done|]. split; [done|]. split; [done|]. split; [by rewrite Hld|].
  rewrite Hrec in Hp.
  split; [by rewrite Array_sort_Permutation|].
  split; [rewrite Hp; apply Permutation_swap|].
  split.
  { rewrite Array_sort_Permutation, Hp. apply Permutation_swap. }
  intros Ht Hs. split.
  - simpl. unfold byCreatedAtDesc; simpl.
    by rewrite (proj2 (Z.leb_gt _ _)) by lia.
  - assert (ld = [ {| id := v2;
                      text := "Set up CI/CD pipeline with Redis database";
                      completed := true; createdAt := s2;
                      updatedAt := Some s2 |};
                   {| id := v1;
                      text := "Welcome to your DevOps To-Do App with Redis!";
                      completed := false; createdAt := s1;
                      updatedAt := Some s1 |} ]) as ->; [|done].
    symmetry. apply newerFirst_unique; [| |done|by symmetry].
    + intros x y Hx Hy. rewrite !elem_of_cons in Hx, Hy.
      destruct Hx as [->|[->|Hx]]; [| |by inversion Hx];
        destruct Hy as [->|[->|Hy]]; try done; try (by inversion Hy);
        simpl; lia.
    + unfold newerFirst. repeat constructor; simpl; lia.
Qed.

(** C2 (as amended).  On the volatile backend an Item carries no
    [updatedAt] until its first update.  On the durable backend the Item
    returned by [create] carries none either, but [get] and [list] report
    [updatedAt] equal to [createdAt] until the first update.  This holds
    across any operations aimed at other ids (with fresh ids for the
    creates among them).  On both backends, after every update
    [updatedAt] equals the time of that update. *)
Theorem updatedAt_lifecycle sMembers sv used uuid T created ops
    sv0 i todo updates now :
  sMembers_ok sMembers →
  sound sv → covers used sv → uuid ∉ used → uuid ≠ "" →
  fresh_creates (uuid :: used) ops →
  Forall (λ op, target op ≠ Some uuid) ops →
  (∃ sv1,
     TodoService.createTodo (Routes.newTodo uuid T created) sv
       = (Ok (Routes.newTodo uuid T created), sv1) ∧
     updatedAt (Routes.newTodo uuid T created) = None ∧
     ∃ todo1,
       TodoService.getTodoById uuid (TodoService.run sMembers ops sv1)
         = Ok (Some todo1) ∧
       updatedAt todo1
         = (if TodoService.useRedis sv then Some created else None) ∧
       ∀ l sv2 x,
         TodoService.getAllTodos sMembers (TodoService.run sMembers ops sv1)
           = (Ok l, sv2) →
         x ∈ l → id x = uuid → x = todo1) ∧
  (TodoService.getTodoById i sv0 = Ok (Some todo) →
   ∃ todo' sv',
     TodoService.updateTodo i updates now sv0 = (Ok (Some todo'), sv') ∧
     updatedAt todo' = Some now ∧
     TodoService.getTodoById i sv' = Ok (Some todo')).
Proof.
  intros Hperm Hs Hc Hnew Hid Hf Hops. split.
  - set (item := Routes.newTodo uuid T created).
    assert (stored sv uuid = None) as Hst.
    { apply eq_None_not_Some. intros ?. by apply Hnew, Hc. }
    destruct Hs as (Hav&Hwk&Hnd).
    destruct (createTodo_fresh sv item Hav Hwk Hid Hst)
      as (sv1&Hcr&Hst1&_&Hu1&_&_).
    destruct (step_sound sMembers sv used (TodoService.Create item))
      as [Hs1 Hc1]; [done..|].
    simpl in Hs1, Hc1. rewrite Hcr in Hs1, Hc1. simpl in Hs1, Hc1.
    exists sv1. split; [done|]. split; [done|].
    destruct (run_sound sMembers ops sv1 _ Hs1 Hc1 Hf) as [Hs2 _].
    pose proof (run_stored_other sMembers ops sv1 _ uuid Hs1 Hc1 Hf Hops)
      as Hkept.
    change (id item) with uuid in Hst1. rewrite Hst1 in Hkept.
    exists (read_back sv item). split; [|split].
    + rewrite getTodoById_stored; [by rewrite Hkept|apply Hs2].
    + unfold read_back. by destruct (TodoService.useRedis sv).
    + intros l sv2 x Hl Hx Hxid.
      destruct Hs2 as (Hav2&Hwk2&Hnd2).
      destruct (listed_is_stored sMembers Hperm _ l sv2 x Hav2 Hwk2 Hl Hx)
        as (x'&Hget&_&_&Heq).
      rewrite <- (Heq Hnd2). rewrite Hxid in Hget.
      apply getTodoById_Ok in Hget as [_ Hget].
      assert (sv2 = TodoService.step sMembers
                      (TodoService.run sMembers ops sv1) TodoService.List)
        as -> by (simpl; by rewrite Hl).
      rewrite step_stored_other in Hget by done. congruence.
  - intros Hget.
    destruct (updateTodo_get sv0 i todo updates now Hget) as (sv'&Hupd&Hget').
    by exists (updated updates now todo), sv'.
Qed.

(** C3.  After every sequence of create, update, delete and list
    operations on either backend (the durable data keyed by id, as the
    service writes it), every Item in the result of [list()] has an id for
    which [get(id)] returns an Item of the listing with that id, not the
    not-found sentinel (the very Item listed, when no id is held twice);
    and on the durable backend an index entry whose hash is missing makes
    no error and no entry: the listing is that of the store without this
    index entry, and [get] of it is the sentinel. *)
Theorem index_record_consistency sMembers sv ops s i :
  sMembers_ok sMembers → available sv → well_keyed sv →
  (∃ l sv',
     TodoService.getAllTodos sMembers (TodoService.run sMembers ops sv)
       = (Ok l, sv') ∧
     ∀ todo, todo ∈ l →
       ∃ todo', TodoService.getTodoById (id todo) sv' = Ok (Some todo') ∧
                id todo' = id todo ∧ todo' ∈ l ∧
                (unique_ids (TodoService.run sMembers ops sv) →
                 todo' = todo)) ∧
  (RedisService.isConnected s = true →
   i ∈ RedisService.todos_all s →
   RedisService.hashes s !! RedisService.todoKey i = None →
   ∃ l, RedisService.getAllTodos sMembers s = Ok l ∧
        l ≡ₚ records (RedisService.sRem i s) ∧
        RedisService.getTodoById i s = Ok None).
Proof.
  intros Hperm Hav Hwk. split; [|by apply ghost_entry_skipped].
  assert (available (TodoService.run sMembers ops sv)) as Hav'
    by (by apply run_available).
  assert (well_keyed (TodoService.run sMembers ops sv)) as Hwk'.
  { clear Hav Hav'. revert sv Hwk.
    induction ops as [|op ops IH]; intros sv Hwk; [done|].
    simpl. by apply IH, step_well_keyed. }
  destruct (getAllTodos_dataset sMembers Hperm _ Hav') as (l&Hl&_).
  eexists l, _. split; [exact Hl|]. intros todo Hin.
  by eapply listed_is_stored.
Qed.

(** C4.  For every id present in the dataset, on either backend, the
    first [delete(id)] returns the Item as it was before and removes it
    (its hash and its index entry on the durable backend, its array
    element on the volatile one), so that [get(id)] no longer finds it;
    a second [delete(id)] returns the not-found sentinel, not an error,
    and changes nothing.  [delete] on an id that is not there returns the
    sentinel as well. *)
Theorem delete_idempotence sv i todo :
  unique_ids sv →
  TodoService.getTodoById i sv = Ok (Some todo) →
  ∃ sv',
    TodoService.deleteTodo i sv = (Ok (Some todo), sv') ∧
    TodoService.getTodoById i sv' = Ok None ∧
    (TodoService.useRedis sv = true →
     (i ∉ RedisService.todos_all (TodoService.redisService sv')) ∧
     RedisService.hashes (TodoService.redisService sv')
       !! RedisService.todoKey i = None) ∧
    (TodoService.useRedis sv = false →
     TodoService.inMemoryTodos sv ≡ₚ todo :: TodoService.inMemoryTodos sv' ∧
     Forall (λ x, id x ≠ i) (TodoService.inMemoryTodos sv')) ∧
    TodoService.deleteTodo i sv' = (Ok None, sv') ∧
    ∀ sv0 j, TodoService.getTodoById j sv0 = Ok None →
             TodoService.deleteTodo j sv0 = (Ok None, sv0).
Proof.
  intros Hnd [Hav Hst]%getTodoById_Ok.
  destruct (deleteTodo_stored sv i todo Hav Hnd Hst)
    as (sv'&Hdel&Hst'&_&_&Hav'&Hredis&Hvol).
  exists sv'. split; [done|]. split; [by rewrite getTodoById_stored, Hst'|].
  split; [done|]. split; [done|].
  split; [by apply deleteTodo_missing|].
  intros sv0 j [??]%getTodoById_Ok. by apply deleteTodo_missing.
Qed.

(** C5.  For every Item that exists, on either backend, [update(id,
    partial)] changes exactly the properties present in [partial]: the
    returned Item, which is also what [get] then returns, has the new
    [text] if one was given and the old one otherwise, the new [completed]
    if one was given and the old one otherwise, and the same [id] and
    [createdAt].  So after creating an Item with text "A",
    [update(id, {completed: true})] leaves [text] = "A" with [completed]
    = true, and updating only [text] leaves [completed] as it was. *)
Theorem update_partiality sv i todo updates now :
  TodoService.getTodoById i sv = Ok (Some todo) →
  ∃ todo' sv',
    TodoService.updateTodo i updates now sv = (Ok (Some todo'), sv') ∧
    TodoService.getTodoById i sv' = Ok (Some todo') ∧
    text todo' = match upd_text updates with
                 | Some v => v
                 | None => text todo
                 end ∧
    completed todo' = match upd_completed updates with
                      | Some v => v
                      | None => completed todo
                      end ∧
    id todo' = id todo ∧ createdAt todo' = createdAt todo.
Proof.
  intros Hget.
  destruct (updateTodo_get sv i todo updates now Hget) as (sv'&Hupd&Hget').
  exists (updated updates now todo), sv'. split; [done|]. split; [done|].
  unfold updated; simpl.
  by destruct (upd_text updates), (upd_completed updates).
Qed.

(** C6.  For every non-empty text [T], on either backend, creating the
    Item the service builds for [T] (a new id, [completed] false,
    [createdAt] the time of the call) returns that Item, and [get] on the
    returned Item's id then yields an Item with that id, [text] = [T],
    [completed] = false and [createdAt] set to the creation time.  It is
    the Item the handler of [POST /api/todos] creates, and answers 201
    with, for a body text that trims to [T]. *)
Theorem create_get_round_trip trim sv uuid T now :
  available sv → well_keyed sv →
  T ≠ "" → uuid ≠ "" →
  TodoService.getTodoById uuid sv = Ok None →
  ∃ created sv',
    TodoService.createTodo (Routes.newTodo uuid T now) sv = (Ok created, sv') ∧
    created = Routes.newTodo uuid T now ∧
    (∃ todo,
       TodoService.getTodoById (id created) sv' = Ok (Some todo) ∧
       id todo = uuid ∧ text todo = T ∧ completed todo = false ∧
       createdAt todo = now) ∧
    ∀ body, body ≠ "" → trim body = T →
      Routes.post_todos trim (Some body) uuid now sv
      = (Routes.Json 201 created, sv').
Proof.
  intros Hav Hwk HT Hid [_ Hst]%getTodoById_Ok.
  destruct (createTodo_fresh sv (Routes.newTodo uuid T now) Hav Hwk Hid Hst)
    as (sv'&Hcr&Hst'&_&_&Hav'&_).
  exists (Routes.newTodo uuid T now), sv'. split; [done|]. split; [done|].
  split.
  - exists (read_back sv (Routes.newTodo uuid T now)).
    split; [by rewrite getTodoById_stored, Hst'|].
    unfold read_back. by destruct (TodoService.useRedis sv).
  - intros body Hbody Htrim. unfold Routes.post_todos.
    rewrite Htrim, !bool_decide_eq_false_2 by done. simpl.
    by rewrite Hcr.
Qed.

(** C7.  For every dataset, on either backend, [list()] returns all the
    Items of the dataset, newest [createdAt] first, and does so anew on
    every read (reading again gives the same listing); creating Items A,
    B, C with strictly increasing [createdAt] in an empty dataset yields
    the listing C, B, A (each Item as the backend reads it back). *)
Theorem listing_order sMembers sv A B C :
  sMembers_ok sMembers → available sv →
  (∃ l sv',
     TodoService.getAllTodos sMembers sv = (Ok l, sv') ∧
     StronglySorted newerFirst l ∧ l ≡ₚ dataset sv ∧
     TodoService.getAllTodos sMembers sv' = (Ok l, sv')) ∧
  (empty_dataset sv →
   id A ≠ "" → id B ≠ "" → id C ≠ "" →
   id A ≠ id B → id A ≠ id C → id B ≠ id C →
   createdAt A < createdAt B → createdAt B < createdAt C →
   (TodoService.getAllTodos sMembers
      (TodoService.run sMembers
         [TodoService.Create A; TodoService.Create B; TodoService.Create C]
         sv)).1
   = Ok (read_back sv <$> [C; B; A])).
Proof.
  intros Hperm Hav. split.
  - destruct (getAllTodos_dataset sMembers Hperm sv Hav) as (l&Hl&Hs&Hp).
    eexists l, _. split; [exact Hl|]. split; [done|]. split; [done|].
    by apply getAllTodos_again in Hl.
  - intros. by apply three_created_listed.
Qed.

(** C8.  After any sequence of create, update, delete and list operations
    on a service whose selected backend answers, [stats()] returns the
    counters of the dataset as it then is, and they satisfy
    [completed + pending = total]. *)
Theorem stats_consistency sMembers ops sv :
  sMembers_ok sMembers → available sv →
  ∃ st, TodoService.getStats sMembers (TodoService.run sMembers ops sv) = Ok st
        ∧ st = stats_of (dataset (TodoService.run sMembers ops sv))
        ∧ (stats_completed st + pending st)%nat = total st.
Proof.
  intros Hperm Hav. eexists. split; [|split; [reflexivity|]].
  - by apply getStats_dataset, run_available.
  - apply stats_of_consistent.
Qed.

(** C9 (as amended).  As long as every [create] is handed an id that was
    not handed out before (one the dataset did not hold at the start and
    no earlier [create] brought, which is what [uuidv4()] is relied on for
    in the handler of [POST /api/todos]), no state reached on either
    backend lists two Items with the same id, and an id whose Item has
    been deleted is not found again. *)
Theorem id_uniqueness sMembers sv used ops :
  sMembers_ok sMembers → sound sv → covers used sv →
  fresh_creates used ops →
  (∃ l sv',
     TodoService.getAllTodos sMembers (TodoService.run sMembers ops sv)
       = (Ok l, sv') ∧ NoDup (id <$> l)) ∧
  (∀ ops1 i ops2,
     ops = (ops1 ++ TodoService.Delete i :: ops2)%list →
     holds (TodoService.run sMembers ops1 sv) i →
     TodoService.getTodoById i (TodoService.run sMembers ops sv) = Ok None).
Proof.
  intros Hperm Hs Hc Hf. split.
  - destruct (run_sound sMembers ops sv used Hs Hc Hf) as [Hs' _].
    destruct (getAllTodos_dataset sMembers Hperm _ (proj1 Hs'))
      as (l&Hl&_&Hp).
    eexists l, _. split; [exact Hl|]. rewrite Hp. by apply dataset_NoDup.
  - intros ops1 i ops2 -> [todo Hheld].
    apply fresh_creates_app in Hf as [Hf1 [_ Hf2]].
    destruct (run_sound sMembers ops1 sv used Hs Hc Hf1) as [Hs1 Hc1].
    apply getTodoById_Ok in Hheld as [_ Hheld].
    assert (i ∈ used_after used ops1) as Hi by (apply Hc1; by eauto).
    destruct (step_sound sMembers _ _ (TodoService.Delete i) Hs1 Hc1 I)
      as [Hs2 Hc2].
    rewrite run_app. simpl.
    destruct (run_sound sMembers ops2 _ _ Hs2 Hc2 Hf2) as [[Hav3 _] _].
    rewrite getTodoById_stored by done. f_equal.
    apply (run_stays_gone sMembers ops2 _ (used_after used ops1)); try done.
    destruct Hs1 as (?&_&?). by apply (step_delete_gone sMembers).
Qed.

(** C10.  The storage core does not validate the text of an update: for
    every Item that exists and every string [s], the empty string
    included, [update(id, {text: s})] on either backend succeeds, stores
    [s] as the Item's text and returns the updated Item, and the handler
    of [PUT /api/todos/:id] passes the text through and answers 200;
    whereas the handler of [POST /api/todos] answers 400 to an empty text
    and creates nothing. *)
Theorem update_text_unvalidated trim sv i todo s now uuid :
  TodoService.getTodoById i sv = Ok (Some todo) →
  ∃ todo' sv',
    TodoService.updateTodo i {| upd_text := Some s; upd_completed := None |}
      now sv = (Ok (Some todo'), sv') ∧
    text todo' = s ∧
    TodoService.getTodoById i sv' = Ok (Some todo') ∧
    Routes.put_todo i {| upd_text := Some s; upd_completed := None |} now sv
      = (Routes.Json 200 todo', sv') ∧
    Routes.post_todos trim (Some "") uuid now sv
      = (Routes.Failure 400 "Todo text is required", sv).
Proof.
  intros Hget.
  destruct (updateTodo_get sv i todo
              {| upd_text := Some s; upd_completed := None |} now Hget)
    as (sv'&Hupd&Hget').
  eexists _, sv'. split; [exact Hupd|]. split; [done|]. split; [done|].
  split; [|done]. unfold Routes.put_todo. by rewrite Hupd.
Qed.

(** ** The properties at work on the example states *)

Lemma elements_ok : sMembers_ok elements.
Proof. intros X. reflexivity. Defined.

Lemma durable_empty_sound : sound durable_empty.
Proof.
  split; [intros _; reflexivity|].
  split; [intros _; apply map_Forall_empty|]. intros Hu. discriminate Hu.
Defined.

Lemma volatile_empty_sound : sound volatile_empty.
Proof.
  split; [intros Hu; discriminate Hu|].
  split; [intros Hu; discriminate Hu|]. intros _. apply NoDup_nil_2.
Defined.

Lemma empty_covers sv used :
  (∀ i, stored sv i = None) → covers used sv.
Proof. intros Hnone i [x Hx]. rewrite Hnone in Hx. discriminate Hx. Defined.

Lemma durable_service_sound : sound durable_service.
Proof.
  apply (start_sound elements true); [apply map_Forall_empty|discriminate].
Defined.

(** The two seeded listings do not show the same text. *)
Lemma fallback_seeding_counterexample :
  ¬ ∃ lv ld,
      (TodoService.getAllTodos elements volatile_service).1 = Ok lv ∧
      (TodoService.getAllTodos elements durable_service).1 = Ok ld ∧
      shown <$> lv = shown <$> ld.
Proof.
  intros (lv&ld&Hv&Hd&Heq). vm_compute in Hv, Hd.
  injection Hv as <-. injection Hd as <-. vm_compute in Heq.
  discriminate Heq.
Qed.

Lemma fallback_seeding_witness :
  ∃ lv ld,
    (TodoService.getAllTodos elements volatile_service).1 = Ok lv ∧
    (TodoService.getAllTodos elements durable_service).1 = Ok ld ∧
    shown <$> lv = [("Set up CI/CD pipeline", true);
                    ("Welcome to your DevOps To-Do App!", false)] ∧
    shown <$> ld = [("Set up CI/CD pipeline with Redis database", true);
                    ("Welcome to your DevOps To-Do App with Redis!", false)].
Proof.
  destruct (fallback_seeding elements "u1" "u2" 10 11 "v1" "v2" 20 21
              RedisService.fresh elements_ok)
    as (lv&ld&_&_&Hv&Hd&_&_&_&Horder); [discriminate..|].
  destruct Horder as [Hsv Hsd]; [lia..|].
  exists lv, ld. exact (conj Hv (conj Hd (conj Hsv Hsd))).
Defined.

(** On the durable backend an Item read back before any update carries an
    [updatedAt]. *)
Lemma updatedAt_lifecycle_counterexample :
  ¬ ∀ todo, TodoService.getTodoById "a" durable_with_A = Ok (Some todo) →
            updatedAt todo = None.
Proof.
  intros H.
  discriminate (H {| id := "a"; text := "A"; completed := false;
                     createdAt := 1; updatedAt := Some 1 |}
                  ltac:(vm_compute; reflexivity)).
Qed.

Lemma updatedAt_lifecycle_witness :
  (∃ sv1,
     TodoService.createTodo todoA durable_empty = (Ok todoA, sv1) ∧
     ∃ todo1,
       TodoService.getTodoById "a"
         (TodoService.run elements
            [TodoService.Create todoB;
             TodoService.Update "b" {| upd_text := None;
                                       upd_completed := Some true |} 5;
             TodoService.List] sv1) = Ok (Some todo1) ∧
       updatedAt todo1 = Some 1) ∧
  (∃ todo' sv',
     TodoService.updateTodo "a" {| upd_text := None;
                                   upd_completed := Some true |} 7
       durable_with_A = (Ok (Some todo'), sv') ∧
     updatedAt todo' = Some 7).
Proof.
  destruct (updatedAt_lifecycle elements durable_empty [] "a" "A" 1
              [TodoService.Create todoB;
               TodoService.Update "b" {| upd_text := None;
                                         upd_completed := Some true |} 5;
               TodoService.List]
              durable_with_A "a" (read_back durable_empty todoA)
              {| upd_text := None; upd_completed := Some true |} 7
              elements_ok durable_empty_sound)
    as [(sv1&Hcr&_&todo1&Hget&Hupd&_) Hevery].
  - apply empty_covers. intros i. vm_compute. reflexivity.
  - apply not_elem_of_nil.
  - discriminate.
  - simpl. split; [|done]. rewrite list_elem_of_singleton. discriminate.
  - repeat constructor; discriminate.
  - split.
    + exists sv1. split; [exact Hcr|]. by exists todo1.
    + destruct Hevery as (todo'&sv'&Hu&Ht&_); [vm_compute; reflexivity|].
      by exists todo', sv'.
Defined.

Lemma index_record_consistency_witness :
  (∃ l sv',
     TodoService.getAllTodos elements
       (TodoService.run elements
          [TodoService.Create todoA;
           TodoService.Update "v1" {| upd_text := Some "Hello";
                                      upd_completed := None |} 30;
           TodoService.Delete "v2"] durable_service) = (Ok l, sv') ∧
     ∀ todo, todo ∈ l →
       ∃ todo', TodoService.getTodoById (id todo) sv' = Ok (Some todo') ∧
                id todo' = id todo) ∧
  (∃ l, RedisService.getAllTodos elements durable_ghost = Ok l ∧
        l ≡ₚ records (RedisService.sRem "g" durable_ghost) ∧
        RedisService.getTodoById "g" durable_ghost = Ok None).
Proof.
  destruct durable_service_sound as (Hav&Hwk&_).
  destruct (index_record_consistency elements durable_service
              [TodoService.Create todoA;
               TodoService.Update "v1" {| upd_text := Some "Hello";
                                          upd_completed := None |} 30;
               TodoService.Delete "v2"]
              durable_ghost "g" elements_ok Hav Hwk)
    as [(l&sv'&Hl&Hall) Hghost].
  split.
  - exists l, sv'. split; [exact Hl|]. intros todo Hin.
    destruct (Hall todo Hin) as (todo'&Hget&Hid&_). by exists todo'.
  - apply Hghost.
    + reflexivity.
    + apply elem_of_union_l, elem_of_singleton. reflexivity.
    + vm_compute. reflexivity.
Defined.

Lemma delete_idempotence_witness :
  ∃ sv',
    TodoService.deleteTodo "a" volatile_with_A = (Ok (Some todoA), sv') ∧
    TodoService.getTodoById "a" sv' = Ok None ∧
    TodoService.deleteTodo "a" sv' = (Ok None, sv').
Proof.
  destruct (delete_idempotence volatile_with_A "a" todoA)
    as (sv'&Hdel&Hget&_&_&Hagain&_).
  - intros _. vm_compute. apply NoDup_singleton.
  - reflexivity.
  - by exists sv'.
Defined.

Lemma update_partiality_witness :
  (TodoService.getTodoById "a" volatile_with_A = Ok (Some todoA) ∧
   ∃ todo' sv',
     TodoService.updateTodo "a" {| upd_text := None;
                                   upd_completed := Some true |} 5
       volatile_with_A = (Ok (Some todo'), sv') ∧
     text todo' = "A" ∧ completed todo' = true) ∧
  (TodoService.getTodoById "a" durable_with_A
     = Ok (Some (read_back durable_empty todoA)) ∧
   ∃ todo' sv',
     TodoService.updateTodo "a" {| upd_text := None;
                                   upd_completed := Some true |} 5
       durable_with_A = (Ok (Some todo'), sv') ∧
     text todo' = "A" ∧ completed todo' = true).
Proof.
  assert (TodoService.getTodoById "a" volatile_with_A = Ok (Some todoA))
    as Hv by reflexivity.
  assert (TodoService.getTodoById "a" durable_with_A
          = Ok (Some (read_back durable_empty todoA)))
    as Hd by (vm_compute; reflexivity).
  split; (split; [done|]).
  - destruct (update_partiality volatile_with_A "a" todoA
                {| upd_text := None; upd_completed := Some true |} 5 Hv)
      as (todo'&sv'&Hupd&_&Htext&Hcompleted&_).
    by exists todo', sv'.
  - destruct (update_partiality durable_with_A "a" _
                {| upd_text := None; upd_completed := Some true |} 5 Hd)
      as (todo'&sv'&Hupd&_&Htext&Hcompleted&_).
    by exists todo', sv'.
Defined.

Lemma create_get_round_trip_witness :
  ∃ created sv',
    TodoService.createTodo (Routes.newTodo "a" "A" 1) durable_empty
      = (Ok created, sv') ∧
    created = Routes.newTodo "a" "A" 1 ∧
    ∃ todo,
      TodoService.getTodoById (id created) sv' = Ok (Some todo) ∧
      id todo = "a" ∧ text todo = "A" ∧ completed todo = false ∧
      createdAt todo = 1.
Proof.
  destruct durable_empty_sound as (Hav&Hwk&_).
  destruct (create_get_round_trip (λ x, x) durable_empty "a" "A" 1 Hav Hwk)
    as (created&sv'&Hcr&Hcreated&Hget&_); [discriminate..|reflexivity|].
  exists created, sv'. exact (conj Hcr (conj Hcreated Hget)).
Defined.

Lemma listing_order_witness :
  (TodoService.getAllTodos elements
     (TodoService.run elements
        [TodoService.Create todoA; TodoService.Create todoB;
         TodoService.Create todoC] durable_empty)).1
  = Ok (read_back durable_empty <$> [todoC; todoB; todoA]) ∧
  (TodoService.getAllTodos elements
     (TodoService.run elements
        [TodoService.Create todoA; TodoService.Create todoB;
         TodoService.Create todoC] volatile_empty)).1
  = Ok [todoC; todoB; todoA].
Proof.
  split.
  - destruct durable_empty_sound as (Hav&_).
    apply (listing_order elements durable_empty todoA todoB todoC
             elements_ok Hav);
      (split; reflexivity) || discriminate || reflexivity.
  - destruct volatile_empty_sound as (Hav&_).
    apply (listing_order elements volatile_empty todoA todoB todoC
             elements_ok Hav);
      discriminate || reflexivity.
Defined.

Lemma stats_consistency_witness :
  available durable_service ∧
  ∃ st, TodoService.getStats elements
          (TodoService.run elements
             [TodoService.Create todoA;
              TodoService.Update "a" {| upd_text := None;
                                        upd_completed := Some true |} 5;
              TodoService.Delete "v1"] durable_service) = Ok st
        ∧ (stats_completed st + pending st)%nat = total st.
Proof.
  assert (available durable_service) as Hav by (intros _; reflexivity).
  split; [exact Hav|].
  destruct (stats_consistency elements
              [TodoService.Create todoA;
               TodoService.Update "a" {| upd_text := None;
                                         upd_completed := Some true |} 5;
               TodoService.Delete "v1"] durable_service elements_ok Hav)
    as (st&Hst&_&Hsum).
  exists st. exact (conj Hst Hsum).
Defined.

(** The volatile backend accepts an id a second time, and either backend
    accepts an id again after its Item was deleted. *)
Lemma id_uniqueness_counterexample :
  (∃ l sv',
     TodoService.getAllTodos elements
       (TodoService.run elements
          [TodoService.Create todoA; TodoService.Create todoA]
          volatile_empty) = (Ok l, sv') ∧
     ¬ NoDup (id <$> l)) ∧
  TodoService.getTodoById "a"
    (TodoService.run elements
       [TodoService.Create todoA; TodoService.Delete "a"] durable_empty)
    = Ok None ∧
  TodoService.getTodoById "a"
    (TodoService.run elements
       [TodoService.Create todoA; TodoService.Delete "a";
        TodoService.Create todoA_again] durable_empty)
    = Ok (Some (read_back durable_empty todoA_again)).
Proof.
  split; [|split; vm_compute; reflexivity].
  eexists _, _. split; [reflexivity|]. simpl.
  intros Hnd. apply NoDup_cons in Hnd as [Hnin _]. apply Hnin. by left.
Qed.

Lemma id_uniqueness_witness :
  (∃ l sv',
     TodoService.getAllTodos elements
       (TodoService.run elements
          [TodoService.Create todoA; TodoService.Create todoB;
           TodoService.Delete "a"; TodoService.Create todoC]
          volatile_empty) = (Ok l, sv') ∧ NoDup (id <$> l)) ∧
  TodoService.getTodoById "a"
    (TodoService.run elements
       [TodoService.Create todoA; TodoService.Create todoB;
        TodoService.Delete "a"; TodoService.Create todoC] volatile_empty)
    = Ok None.
Proof.
  destruct (id_uniqueness elements volatile_empty []
              [TodoService.Create todoA; TodoService.Create todoB;
               TodoService.Delete "a"; TodoService.Create todoC]
              elements_ok volatile_empty_sound)
    as [Hlist Hgone].
  - apply empty_covers. reflexivity.
  - simpl. rewrite !elem_of_cons, !elem_of_nil.
    repeat split; intros H; repeat destruct H as [H|H];
      discriminate H || exact H.
  - split; [exact Hlist|].
    apply (Hgone [TodoService.Create todoA; TodoService.Create todoB] "a"
             [TodoService.Create todoC] eq_refl).
    exists todoA. reflexivity.
Defined.

Lemma update_text_unvalidated_witness :
  ∃ todo' sv',
    TodoService.updateTodo "a" {| upd_text := Some ""; upd_completed := None |}
      5 volatile_with_A = (Ok (Some todo'), sv') ∧
    text todo' = "" ∧
    TodoService.getTodoById "a" sv' = Ok (Some todo').
Proof.
  destruct (update_text_unvalidated (λ x, x) volatile_with_A "a" todoA ""
              5 "b" eq_refl)
    as (todo'&sv'&Hupd&Htext&Hget&_).
  by exists todo', sv'.
Defined.

(** ** Further properties of the code *)

(** *** Reconnecting *)

(** X1.  [retry_strategy] asks for another attempt exactly when the error
    is not a refused connection, no more than an hour has been spent
    retrying and the attempt is at most the tenth; the delay is then a
    hundred milliseconds per attempt, so never more than a second: the cap
    of 3000 in the source is never reached. *)
Theorem retry_strategy_delay options ms :
  (RedisService.retry_strategy options = RedisService.RetryAfter ms ↔
   RedisService.error_code options ≠ Some "ECONNREFUSED" ∧
   RedisService.total_retry_time options ≤ 3600000 ∧
   RedisService.attempt options ≤ 10 ∧
   ms = RedisService.attempt options * 100) ∧
  (RedisService.retry_strategy options = RedisService.RetryAfter ms →
   ms ≤ 1000).
Proof.
  unfold RedisService.retry_strategy.
  case_bool_decide as Hcode.
  { split; [|done]. split; [done|]. intros (?&_). done. }
  destruct (Z.ltb_spec (1000 * 60 * 60)
              (RedisService.total_retry_time options)) as [Ht|Ht].
  { split; [|done]. split; [done|]. lia. }
  destruct (Z.ltb_spec 10 (RedisService.attempt options)) as [Ha|Ha].
  { split; [|done]. split; [done|]. lia. }
  split.
  - split.
    + intros [= <-]. repeat split; [done|lia..].
    + intros (_&_&_&->). f_equal. lia.
  - intros [= <-]. lia.
Qed.

(** *** When the durable backend is down *)

Lemma with_redis_same sv :
  TodoService.with_redis sv (TodoService.redisService sv) = sv.
Proof. by destruct sv. Qed.

(** X2.  Once the durable backend has been selected, a lost connection is
    not made up for by the volatile backend: every operation of the
    facade throws "Redis not connected" and every handler that reaches
    the storage answers 500, and neither the array nor the server data
    is touched. *)
Theorem disconnected_backend_throws sMembers trim sv i todo updates now
    body uuid :
  TodoService.useRedis sv = true →
  RedisService.isConnected (TodoService.redisService sv) = false →
  TodoService.getAllTodos sMembers sv = (Throw "Redis not connected", sv) ∧
  TodoService.getTodoById i sv = Throw "Redis not connected" ∧
  TodoService.createTodo todo sv = (Throw "Redis not connected", sv) ∧
  TodoService.updateTodo i updates now sv
    = (Throw "Redis not connected", sv) ∧
  TodoService.deleteTodo i sv = (Throw "Redis not connected", sv) ∧
  TodoService.getStats sMembers sv = Throw "Redis not connected" ∧
  RedisService.clearCompleted sMembers (TodoService.redisService sv)
    = (Throw "Redis not connected", TodoService.redisService sv) ∧
  Routes.get_todos sMembers sv
    = (Routes.TodosFailure 500 "Failed to fetch todos", sv) ∧
  Routes.put_todo i updates now sv
    = (Routes.Failure 500 "Failed to update todo", sv) ∧
  Routes.delete_todo i sv
    = (Routes.Failure 500 "Failed to delete todo", sv) ∧
  (¬ refused_text trim (Some body) →
   Routes.post_todos trim (Some body) uuid now sv
     = (Routes.Failure 500 "Failed to create todo", sv)).
Proof.
  intros Hu Hc.
  unfold Routes.get_todos, Routes.put_todo, Routes.delete_todo,
    Routes.post_todos, TodoService.getAllTodos, TodoService.getTodoById,
    TodoService.createTodo, TodoService.updateTodo, TodoService.deleteTodo,
    TodoService.getStats, RedisService.getAllTodos, RedisService.getTodoById,
    RedisService.createTodo, RedisService.updateTodo,
    RedisService.deleteTodo, RedisService.getStats,
    RedisService.clearCompleted.
  rewrite Hu, Hc. simpl. rewrite with_redis_same.
  repeat (split; [done|]).
  intros Hvalid. simpl in Hvalid.
  rewrite !bool_decide_eq_false_2 by tauto. done.
Qed.

(** *** The reading handlers *)

(** X3.  [GET /health] answers 200 exactly when the selected backend
    answers, with the database reported as "in-memory" on the volatile
    backend and as "healthy" or, when the ping fails, "error" with the
    ping's message on the durable one.  When the durable backend is
    disconnected it answers 500 with database status "error" and message
    "Redis not connected": the status "disconnected" of [healthCheck]
    never reaches a response. *)
Theorem health_endpoint sMembers Number ping now (uptime : Number)
    NODE_ENV sv :
  match Routes.get_health sMembers Number ping now uptime NODE_ENV sv with
  | (code, Routes.HealthOK _ ts up env db stats) =>
      code = 200%nat ∧ available sv ∧ ts = now ∧
      TodoService.getStats sMembers sv = Ok stats ∧
      db = (if TodoService.useRedis sv
            then match ping with
                 | None =>
                     {| RedisService.status := "healthy";
                        RedisService.message :=
                          "Redis connection is healthy" |}
                 | Some m => {| RedisService.status := "error";
                                RedisService.message := m |}
                 end
            else {| RedisService.status := "in-memory";
                    RedisService.message := "Using in-memory storage" |})
  | (code, Routes.HealthERROR _ ts err db) =>
      code = 500%nat ∧ ¬ available sv ∧ ts = now ∧
      err = "Health check failed" ∧
      db = {| RedisService.status := "error";
              RedisService.message := "Redis not connected" |}
  end.
Proof.
  unfold Routes.get_health, TodoService.healthCheck, TodoService.getStats,
    RedisService.healthCheck, RedisService.getStats,
    RedisService.getAllTodos, available.
  destruct (TodoService.useRedis sv) eqn:Hu.
  - destruct (RedisService.isConnected _) eqn:Hc; simpl.
    + case_bool_decide; simpl; repeat (split; [done|]); done.
    + split; [done|]. split; [|done]. intros Hav. by specialize (Hav eq_refl).
  - simpl. repeat (split; [done|]). done.
Qed.

(** X4.  On a backend that answers, [GET /api/todos] answers 200 with the
    listing and its length as [count], and that count is the [total] that
    [stats()] reports, before the listing as well as after it. *)
Theorem listing_count_matches_stats sMembers sv :
  sMembers_ok sMembers → available sv →
  ∃ l sv',
    Routes.get_todos sMembers sv = (Routes.Todos 200 l (length l), sv') ∧
    TodoService.getStats sMembers sv = Ok (stats_of l) ∧
    TodoService.getStats sMembers sv' = Ok (stats_of l) ∧
    total (stats_of l) = length l.
Proof.
  intros Hperm Hav.
  destruct (getAllTodos_dataset sMembers Hperm sv Hav) as (l&Hl&_&Hp).
  assert (TodoService.getStats sMembers sv = Ok (stats_of l)) as Hst.
  { rewrite (getStats_dataset sMembers sv Hperm Hav).
    by rewrite (stats_of_Permutation _ _ Hp). }
  exists l. eexists. unfold Routes.get_todos. rewrite Hl.
  split; [reflexivity|]. split; [done|]. split; [|done].
  destruct (TodoService.useRedis sv) eqn:Hu; [done|].
  unfold TodoService.getStats. simpl. by rewrite Hu.
Qed.

(** *** The writing handlers *)


Lemma stats_of_cons todo todos :
  stats_of (todo :: todos)
  = {| total := S (total (stats_of todos));
       stats_completed :=
         (if completed todo then S (stats_completed (stats_of todos))
          else stats_completed (stats_of todos));
       pending :=
         (if completed todo then pending (stats_of todos)
          else S (pending (stats_of todos))) |}.
Proof.
  unfold stats_of. simpl. rewrite !filter_cons.
  by destruct (completed todo).
Qed.

(** X6.  A [POST /api/todos] with a text that is not refused, a new
    non-empty id and a backend that answers, responds 201 with the new
    Item, and [stats()] then counts one more Item in total and one more
    pending, with the completed count as before. *)
Theorem post_todos_grows_stats sMembers trim sv body uuid now :
  sMembers_ok sMembers → available sv → well_keyed sv →
  ¬ refused_text trim (Some body) → uuid ≠ "" →
  TodoService.getTodoById uuid sv = Ok None →
  ∃ sv' st,
    Routes.post_todos trim (Some body) uuid now sv
      = (Routes.Json 201 (Routes.newTodo uuid (trim body) now), sv') ∧
    TodoService.getStats sMembers sv = Ok st ∧
    TodoService.getStats sMembers sv'
      = Ok {| total := S (total st);
              stats_completed := stats_completed st;
              pending := S (pending st) |}.
Proof.
  intros Hperm Hav Hwk Hvalid Hid [_ Hst]%getTodoById_Ok.
  simpl in Hvalid.
  set (item := Routes.newTodo uuid (trim body) now).
  pose proof (dataset_createTodo sv item Hav Hwk Hid Hst) as Hd.
  destruct (createTodo_fresh sv item Hav Hwk Hid Hst)
    as (sv'&Hcr&_&_&_&Hav'&_).
  rewrite Hcr in Hd. simpl in Hd.
  exists sv', (stats_of (dataset sv)).
  split; [|split].
  - unfold Routes.post_todos. rewrite !bool_decide_eq_false_2 by tauto.
    simpl. fold item. by rewrite Hcr.
  - by apply getStats_dataset.
  - rewrite (getStats_dataset sMembers sv' Hperm Hav').
    rewrite (stats_of_Permutation _ _ Hd), stats_of_cons. f_equal.
    unfold read_back. by destruct (TodoService.useRedis sv).
Qed.

Lemma updateTodo_absent sv i updates now :
  available sv → well_keyed sv → i ≠ "" → stored sv i = None →
  TodoService.updateTodo i updates now sv = (Ok None, sv).
Proof.
  unfold available, well_keyed, stored. intros Hav Hwk Hi Hst.
  destruct (TodoService.useRedis sv) eqn:Hu.
  - unfold TodoService.updateTodo, RedisService.updateTodo,
      RedisService.exists_.
    rewrite Hu, Hav by done. simpl.
    rewrite readTodo_None_no_hash by auto.
    rewrite bool_decide_eq_false_2 by (by intros [??]). simpl.
    by rewrite with_redis_same.
  - by apply volatile_updateTodo_None.
Qed.

(** X7.  An update never creates: [PUT /api/todos/:id] for an id under
    which the backend holds no Item answers 404 "Todo not found" and
    leaves the store exactly as it was, whatever the body asks for. *)
Theorem put_unknown_id_404 sv i updates now :
  well_keyed sv → i ≠ "" →
  TodoService.getTodoById i sv = Ok None →
  Routes.put_todo i updates now sv
    = (Routes.Failure 404 "Todo not found", sv) ∧
  TodoService.updateTodo i updates now sv = (Ok None, sv).
Proof.
  intros Hwk Hi [Hav Hst]%getTodoById_Ok.
  pose proof (updateTodo_absent sv i updates now Hav Hwk Hi Hst) as Hupd.
  unfold Routes.put_todo. by rewrite Hupd.
Qed.

(** *** What a write does to the rest of the dataset *)

Lemma readTodo_updateTodo i updates now s j :
  RedisService.isConnected s = true →
  readTodo (RedisService.updateTodo i updates now s).2 j
  = (if decide (j = i) then updated updates now <$> readTodo s j
     else readTodo s j) ∧
  RedisService.todos_all (RedisService.updateTodo i updates now s).2
  = RedisService.todos_all s.
Proof.
  intros Hc. destruct (readTodo s i) as [todo|] eqn:Hr.
  - destruct (redis_updateTodo_Some i updates now s todo Hc Hr)
      as (s'&->&Hr'&Hother&Hidx&_). simpl. split; [|done].
    case_decide as Hj; [subst; by rewrite Hr', Hr|by apply Hother].
  - destruct (redis_updateTodo_None i updates now s Hc Hr)
      as (s'&->&Hsame&Hidx&_). simpl. split; [|done].
    rewrite Hsame. case_decide as Hj; [subst; by rewrite Hr|done].
Qed.

Lemma records_updateTodo i updates now s :
  RedisService.isConnected s = true → keyed_by_id s →
  records (RedisService.updateTodo i updates now s).2
  = retouched i updates now <$> records s.
Proof.
  intros Hc Hk. unfold records.
  rewrite (proj2 (readTodo_updateTodo i updates now s i Hc)).
  rewrite list_fmap_omap. apply omap_agree. intros j _.
  rewrite (proj1 (readTodo_updateTodo i updates now s j Hc)).
  destruct (readTodo s j) as [todo|] eqn:Hr; simpl; [|by case_decide].
  apply readTodo_id in Hr; [|done]. unfold retouched. rewrite Hr.
  by case_decide.
Qed.

Lemma retouched_id i updates now todo :
  id (retouched i updates now todo) = id todo.
Proof. unfold retouched. by case_decide. Qed.

Lemma volatile_dataset_updateTodo sv i updates now :
  TodoService.useRedis sv = false →
  NoDup (id <$> TodoService.inMemoryTodos sv) →
  TodoService.inMemoryTodos (TodoService.updateTodo i updates now sv).2
  = retouched i updates now <$> TodoService.inMemoryTodos sv.
Proof.
  intros Hu Hnd. set (l := TodoService.inMemoryTodos sv) in *.
  destruct (find_by_id i l) as [todo|] eqn:Hf.
  - destruct (volatile_updateTodo_Some sv i updates now todo Hu Hf)
      as (l'&->&Hf'&Hother&Hids). simpl. fold l in Hother, Hids.
    assert (NoDup (id <$> l')) as Hnd' by (by rewrite Hids).
    apply list_eq. intros n. rewrite list_lookup_fmap.
    pose proof (f_equal (λ x, x !! n) Hids) as Hn. simpl in Hn.
    rewrite !list_lookup_fmap in Hn.
    destruct (l !! n) as [y|] eqn:Hy, (l' !! n) as [y'|] eqn:Hy';
      simpl in *; try done.
    injection Hn as Hn. f_equal.
    apply list_elem_of_lookup_2 in Hy, Hy'.
    pose proof (find_by_id_unique l' y' Hnd' Hy') as Hfy'.
    unfold retouched. case_decide as Hyi.
    + rewrite Hn, Hyi, Hf' in Hfy'. injection Hfy' as <-. f_equal.
      apply find_by_id_Some in Hf as [Hin Hid].
      eapply NoDup_ids_eq; [exact Hnd|done..|congruence].
    + rewrite Hn, Hother in Hfy' by done.
      rewrite find_by_id_unique in Hfy' by done. by injection Hfy'.
  - rewrite volatile_updateTodo_None by done. simpl. fold l.
    apply find_by_id_None in Hf. symmetry. apply list_eq. intros n.
    rewrite list_lookup_fmap. destruct (l !! n) as [y|] eqn:Hy; [|done].
    simpl. f_equal. unfold retouched. rewrite decide_False; [done|].
    rewrite Forall_forall in Hf. apply Hf.
    by eapply list_elem_of_lookup_2.
Qed.

Lemma stats_of_retouched_text i updates now l :
  upd_completed updates = None →
  stats_of (retouched i updates now <$> l) = stats_of l.
Proof.
  intros Hc. induction l as [|todo l IH]; [done|]. csimpl.
  rewrite !stats_of_cons, IH. f_equal;
    unfold retouched, updated; case_decide; simpl; by rewrite ?Hc.
Qed.

(** X8.  An update changes one Item and no other: on either backend in
    good order the dataset after [update(id, partial)] is the dataset
    before with the Item of that id, if there is one, replaced by its
    updated form, every Item in its place; so the number of Items stays,
    and [stats()] answers as before when the partial gives no
    [completed]. *)
Theorem update_changes_one_item sMembers sv i updates now :
  sMembers_ok sMembers → sound sv →
  dataset (TodoService.updateTodo i updates now sv).2
    = retouched i updates now <$> dataset sv ∧
  id <$> dataset (TodoService.updateTodo i updates now sv).2
    = id <$> dataset sv ∧
  (upd_completed updates = None →
   TodoService.getStats sMembers (TodoService.updateTodo i updates now sv).2
   = TodoService.getStats sMembers sv).
Proof.
  intros Hperm (Hav&Hwk&Hnd).
  assert (dataset (TodoService.updateTodo i updates now sv).2
          = retouched i updates now <$> dataset sv) as Hd.
  { unfold available, well_keyed, unique_ids, dataset in *.
    destruct (TodoService.useRedis sv) eqn:Hu.
    - pose proof (records_updateTodo i updates now _ (Hav eq_refl)
                    (Hwk eq_refl)) as Hrec.
      unfold TodoService.updateTodo. rewrite Hu.
      destruct (RedisService.updateTodo _ _ _ _) as [r s']. simpl in *.
      by rewrite Hu.
    - pose proof (volatile_dataset_updateTodo sv i updates now Hu
                    (Hnd eq_refl)) as Hvol.
      pose proof (step_useRedis sMembers sv
                    (TodoService.Update i updates now)) as Hu'.
      simpl in Hu'. by rewrite Hu', Hu. }
  split; [done|]. split.
  - rewrite Hd, <- list_fmap_compose. apply list_fmap_ext.
    intros ? todo _. apply retouched_id.
  - intros Hc.
    pose proof (step_available sMembers sv
                  (TodoService.Update i updates now) Hav) as Hav'.
    simpl in Hav'.
    rewrite !getStats_dataset by done. rewrite Hd.
    by rewrite stats_of_retouched_text.
Qed.

Lemma filter_all {A} (P : A → Prop) `{∀ x, Decision (P x)} (l : list A) :
  Forall P l → filter P l = l.
Proof.
  induction 1 as [|x l Hx Hl IH]; [done|].
  by rewrite filter_cons, decide_True, IH.
Qed.

Lemma filter_none {A} (P : A → Prop) `{∀ x, Decision (P x)} (l : list A) :
  Forall (λ x, ¬ P x) l → filter P l = [].
Proof.
  induction 1 as [|x l Hx Hl IH]; [done|].
  by rewrite filter_cons, decide_False, IH.
Qed.

(** The dataset with the entry of one id set apart. *)
Lemma records_apart s i :
  records s ≡ₚ
  (if decide (i ∈ RedisService.todos_all s)
   then match readTodo s i with Some todo => [todo] | None => [] end
   else [])
  ++ omap (readTodo s) (elements (RedisService.todos_all s ∖ {[i]})).
Proof.
  unfold records. case_decide as Hin.
  - pose proof (omap_elements_apart (readTodo s) (RedisService.todos_all s) i)
      as Hp.
    assert ({[i]} ∪ RedisService.todos_all s = RedisService.todos_all s)
      as Heq.
    { apply set_eq. intros x. rewrite elem_of_union, elem_of_singleton.
      split; [|tauto]. intros [->|?]; done. }
    by rewrite Heq in Hp.
  - assert (RedisService.todos_all s ∖ {[i]} = RedisService.todos_all s)
      as ->; [|done].
    apply set_eq. intros x. rewrite elem_of_difference, elem_of_singleton.
    split; [tauto|]. intros ?. split; [done|]. by intros ->.
Qed.

Lemma records_deleteTodo i s :
  RedisService.isConnected s = true → keyed_by_id s →
  records (RedisService.deleteTodo i s).2
  ≡ₚ filter (λ todo, id todo ≠ i) (records s).
Proof.
  intros Hc Hk.
  assert (Forall (λ todo, id todo ≠ i)
            (omap (readTodo s)
               (elements (RedisService.todos_all s ∖ {[i]})))) as Hrest.
  { apply Forall_forall. intros todo (j&Hj&Hr)%list_elem_of_omap.
    apply elem_of_elements, elem_of_difference in Hj as [_ Hj].
    rewrite elem_of_singleton in Hj.
    by rewrite (readTodo_id s j todo Hk Hr). }
  destruct (readTodo s i) as [todo|] eqn:Hr.
  - destruct (redis_deleteTodo_Some i s todo Hc Hr)
      as (s'&->&_&Hidx&_&Hother&_). simpl.
    rewrite (records_apart s i), filter_app, Hr.
    rewrite (filter_all _ _ Hrest).
    assert (filter (λ todo0, id todo0 ≠ i)
              (if decide (i ∈ RedisService.todos_all s)
               then [todo] else []) = []) as ->.
    { case_decide; [|done]. rewrite filter_cons, decide_False; [done|].
      rewrite (readTodo_id s i todo Hk Hr). tauto. }
    simpl. unfold records. rewrite Hidx.
    rewrite (omap_agree (readTodo s') (readTodo s)); [done|].
    intros j Hj. apply elem_of_elements, elem_of_difference in Hj as [_ Hj].
    rewrite elem_of_singleton in Hj. by apply Hother.
  - rewrite redis_deleteTodo_None by done. simpl.
    rewrite filter_all; [done|].
    apply Forall_forall. intros todo (j&_&Hrj)%records_elem_of <-.
    rewrite (readTodo_id s j todo Hk Hrj) in Hr. congruence.
Qed.

(** X9.  A delete removes the Items of one id and no other: on either
    backend in good order the dataset after [delete(id)] is, up to order,
    the dataset before without the Items of that id, and [get] of every
    other id answers as before. *)
Theorem delete_removes_one_id sv i :
  sound sv →
  dataset (TodoService.deleteTodo i sv).2
    ≡ₚ filter (λ todo, id todo ≠ i) (dataset sv) ∧
  ∀ j, j ≠ i →
    TodoService.getTodoById j (TodoService.deleteTodo i sv).2
    = TodoService.getTodoById j sv.
Proof.
  intros (Hav&Hwk&Hnd). split.
  - unfold available, well_keyed, dataset in *.
    pose proof (step_useRedis elements sv (TodoService.Delete i)) as Hu'.
    simpl in Hu'. rewrite Hu'.
    destruct (TodoService.useRedis sv) eqn:Hu.
    + pose proof (records_deleteTodo i _ (Hav eq_refl) (Hwk eq_refl)) as Hrec.
      unfold TodoService.deleteTodo. rewrite Hu.
      by destruct (RedisService.deleteTodo _ _) as [r s'].
    + destruct (find_by_id i (TodoService.inMemoryTodos sv)) as [todo|] eqn:Hf.
      * assert (available sv) as Hav0 by (intros ?; congruence).
        assert (stored sv i = Some todo) as Hst
          by (unfold stored; by rewrite Hu).
        destruct (deleteTodo_stored sv i todo Hav0 Hnd Hst)
          as (sv'&->&_&_&_&_&_&Hvol).
        destruct (Hvol Hu) as [Hp Hall]. simpl.
        apply find_by_id_Some in Hf as [_ Hid].
        rewrite Hp, filter_cons, decide_False by tauto.
        by rewrite filter_all.
      * rewrite volatile_deleteTodo_None by done. simpl.
        rewrite filter_all; [done|]. by apply find_by_id_None.
  - intros j Hj.
    pose proof (step_available elements sv (TodoService.Delete i) Hav)
      as Hav'.
    pose proof (step_stored_other elements sv (TodoService.Delete i) j
                  Hav Hnd) as Hsame.
    simpl in Hav', Hsame.
    rewrite !getTodoById_stored by done. rewrite Hsame; [done|congruence].
Qed.

(** *** Index and hashes stay together *)

Lemma synced_createTodo todo s : synced s → synced (RedisService.createTodo todo s).2.
Proof.
  unfold synced, RedisService.createTodo. intros Hs.
  destruct (RedisService.isConnected s); simpl; [|done].
  intros i. rewrite elem_of_union, elem_of_singleton, Hs.
  destruct (decide (i = id todo)) as [->|Hi].
  - rewrite lookup_insert_eq. split; [by eauto|by left].
  - rewrite lookup_insert_ne; [tauto|]. by intros ?%todoKey_inj.
Qed.

Lemma synced_updateTodo i updates now s :
  synced s → synced (RedisService.updateTodo i updates now s).2.
Proof.
  unfold synced, RedisService.updateTodo. intros Hs.
  destruct (RedisService.isConnected s); simpl; [|done].
  case_match; simpl; [done|]. intros j. rewrite Hs, lookup_alter.
  case_decide as Hj; [|done]. rewrite <- Hj, fmap_is_Some. done.
Qed.

Lemma synced_deleteTodo i s :
  synced s → synced (RedisService.deleteTodo i s).2.
Proof.
  unfold synced, RedisService.deleteTodo. intros Hs.
  destruct (RedisService.isConnected s); simpl; [|done].
  repeat case_match; simpl; try done.
  intros j. rewrite elem_of_difference, elem_of_singleton, Hs.
  destruct (decide (j = i)) as [->|Hj].
  - rewrite lookup_delete_eq. split; [tauto|]. by intros [??].
  - rewrite lookup_delete_ne; [tauto|]. by intros ?%todoKey_inj.
Qed.

Lemma step_well_synced sMembers sv op :
  well_synced sv → well_synced (TodoService.step sMembers sv op).
Proof.
  unfold well_synced. rewrite step_useRedis. intros Hws Hu.
  specialize (Hws Hu).
  destruct op as [todo|i updates now|i|]; simpl;
    unfold TodoService.createTodo, TodoService.updateTodo,
           TodoService.deleteTodo, TodoService.getAllTodos;
    rewrite Hu; simpl; [| | |done].
  - pose proof (synced_createTodo todo _ Hws).
    by destruct (RedisService.createTodo _ _).
  - pose proof (synced_updateTodo i updates now _ Hws).
    by destruct (RedisService.updateTodo _ _ _ _).
  - pose proof (synced_deleteTodo i _ Hws).
    by destruct (RedisService.deleteTodo _ _).
Qed.

Lemma run_well_synced sMembers ops sv :
  well_synced sv → well_synced (TodoService.run sMembers ops sv).
Proof.
  revert sv. induction ops as [|op ops IH]; intros sv Hws; [done|].
  simpl. by apply IH, step_well_synced.
Qed.

(** X10.  The listing is complete: the operations keep index and hashes
    together, so that after any sequence of them on a backend that
    answers (the durable one starting with an index entry for exactly
    the keys that have a hash), every Item that [get(id)] finds is in
    the result of [list()]. *)
Theorem listing_complete sMembers sv ops i todo :
  sMembers_ok sMembers → well_synced sv →
  TodoService.getTodoById i (TodoService.run sMembers ops sv)
    = Ok (Some todo) →
  well_synced (TodoService.run sMembers ops sv) ∧
  ∃ l sv',
    TodoService.getAllTodos sMembers (TodoService.run sMembers ops sv)
      = (Ok l, sv') ∧
    todo ∈ l.
Proof.
  intros Hperm Hws [Hav Hst]%getTodoById_Ok.
  pose proof (run_well_synced sMembers ops sv Hws) as Hws'.
  split; [done|].
  destruct (getAllTodos_dataset sMembers Hperm _ Hav) as (l&Hl&_&Hp).
  eexists l, _. split; [exact Hl|]. rewrite Hp.
  unfold well_synced, stored, dataset in *.
  destruct (TodoService.useRedis (TodoService.run sMembers ops sv)).
  - apply records_elem_of. exists i. split; [|done].
    apply (Hws' eq_refl). unfold readTodo, RedisService.hGetAll in Hst.
    destruct (RedisService.hashes _ !! _); [by eauto|done].
  - by apply find_by_id_Some in Hst as [??].
Qed.

(** *** Reading changes no answer *)

(** X11.  [list()] sorts the volatile array in place, yet on a service in
    good order no operation can tell: after a listing, [get] of every id,
    [stats()] and [list()] itself answer as they would have before. *)
Theorem listing_read_only sMembers sv l sv' :
  sMembers_ok sMembers → sound sv →
  TodoService.getAllTodos sMembers sv = (Ok l, sv') →
  (∀ i, TodoService.getTodoById i sv' = TodoService.getTodoById i sv) ∧
  TodoService.getStats sMembers sv' = TodoService.getStats sMembers sv ∧
  TodoService.getAllTodos sMembers sv' = (Ok l, sv') ∧
  sound sv'.
Proof.
  intros Hperm (Hav&Hwk&Hnd) Hl.
  assert (sv' = TodoService.step sMembers sv TodoService.List) as Hsv'
    by (simpl; by rewrite Hl).
  assert (available sv') as Hav' by (subst sv'; by apply step_available).
  split; [|split; [|split]].
  - intros i. rewrite !getTodoById_stored by done. subst sv'.
    by rewrite step_stored_other.
  - destruct (getAllTodos_dataset sMembers Hperm sv Hav) as (l0&Hl0&_&Hp).
    rewrite Hl in Hl0. injection Hl0 as <- Hsv.
    rewrite !getStats_dataset by done. f_equal.
    apply stats_of_Permutation. rewrite <- Hp. rewrite Hsv.
    unfold dataset in *.
    destruct (TodoService.useRedis sv) eqn:Hu; simpl; rewrite Hu; done.
  - by apply getAllTodos_again in Hl.
  - subst sv'. split; [done|].
    split; [by apply step_well_keyed|by apply step_unique_ids].
Qed.

(** *** Clearing the completed Items *)

Lemma deleteTodo_isConnected i s :
  RedisService.isConnected s = true →
  ∃ r, RedisService.deleteTodo i s
       = (Ok r, (RedisService.deleteTodo i s).2) ∧
       RedisService.isConnected (RedisService.deleteTodo i s).2 = true.
Proof.
  intros Hc. destruct (readTodo s i) as [todo|] eqn:Hr.
  - destruct (redis_deleteTodo_Some i s todo Hc Hr)
      as (s'&->&_&_&_&_&Hc'). eauto.
  - rewrite redis_deleteTodo_None by done. eauto.
Qed.

Lemma deleteEach_records l s :
  RedisService.isConnected s = true → keyed_by_id s →
  ∃ s', RedisService.deleteEach l s = (Ok tt, s') ∧
        RedisService.isConnected s' = true ∧ keyed_by_id s' ∧
        records s' ≡ₚ filter (λ todo, id todo ∉ id <$> l) (records s).
Proof.
  revert s. induction l as [|todo l IH]; intros s Hc Hk.
  - exists s. simpl. split; [done|]. split; [done|]. split; [done|].
    rewrite filter_all; [done|].
    apply Forall_forall. intros x _. apply not_elem_of_nil.
  - simpl. destruct (deleteTodo_isConnected (id todo) s Hc) as (r&Hd&Hc').
    rewrite Hd.
    destruct (IH _ Hc' (keyed_by_id_deleteTodo (id todo) s Hk))
      as (s'&He&Hc''&Hk'&Hp).
    exists s'. split; [done|]. split; [done|]. split; [done|].
    rewrite Hp, records_deleteTodo by done.
    rewrite list_filter_filter. apply reflexive_eq, list_filter_iff.
    intros x. rewrite not_elem_of_cons. tauto.
Qed.

Lemma same_id_same_todo (l : list Todo) x y :
  NoDup (id <$> l) → x ∈ l → y ∈ l → id x = id y → x = y.
Proof.
  induction l as [|a l IH]; simpl; [by intros _ ?%elem_of_nil|].
  intros [Ha Hnd]%NoDup_cons [->|Hx]%elem_of_cons [->|Hy]%elem_of_cons Hid;
    try done.
  - destruct Ha. rewrite Hid. by apply list_elem_of_fmap_2.
  - destruct Ha. rewrite <- Hid. by apply list_elem_of_fmap_2.
  - by apply IH.
Qed.

Lemma filter_iff_in {A} (P Q : A → Prop) `{∀ x, Decision (P x)}
    `{∀ x, Decision (Q x)} (l : list A) :
  (∀ x, x ∈ l → P x ↔ Q x) → filter P l = filter Q l.
Proof.
  induction l as [|a l IH]; [done|]. intros Hpq.
  rewrite !filter_cons, IH.
  - pose proof (Hpq a (list_elem_of_here _ _)).
    repeat case_decide; tauto || done.
  - intros x Hx. apply Hpq. by apply list_elem_of_further.
Qed.

(** X12.  [clearCompleted], which no route calls, does on a connected
    store keyed by id what its name says: it answers with the completed
    Items of the listing, the dataset afterwards is the pending Items of
    the dataset before and nothing else, [getStats] then counts no
    completed Item, and a second call finds nothing to clear. *)
Theorem clearCompleted_clears sMembers s :
  sMembers_ok sMembers → RedisService.isConnected s = true →
  keyed_by_id s →
  ∃ l s',
    RedisService.clearCompleted sMembers s = (Ok l, s') ∧
    l ≡ₚ filter (λ todo, completed todo = true) (records s) ∧
    records s' ≡ₚ filter (λ todo, negb (completed todo) = true) (records s) ∧
    RedisService.getStats sMembers s'
      = Ok {| total := pending (stats_of (records s));
              stats_completed := 0;
              pending := pending (stats_of (records s)) |} ∧
    RedisService.clearCompleted sMembers s' = (Ok [], s').
Proof.
  intros Hok Hc Hk.
  destruct (redis_getAllTodos_records sMembers s Hok Hc) as (l0&Hl0&_&Hp0).
  set (l := filter (λ todo, completed todo = true) l0).
  destruct (deleteEach_records l s Hc Hk) as (s'&He&Hc'&Hk'&Hp).
  assert (records s'
          ≡ₚ filter (λ todo, negb (completed todo) = true) (records s))
    as Hrec.
  { rewrite Hp. apply reflexive_eq, filter_iff_in. intros x Hx. split.
    - intros Hn. destruct (completed x) eqn:Hcx; [|done]. destruct Hn.
      apply list_elem_of_fmap_2, list_elem_of_filter.
      split; [done|]. by rewrite Hp0.
    - intros Hcx (y&Hid&Hy)%list_elem_of_fmap.
      apply list_elem_of_filter in Hy as [Hcy Hy]. rewrite Hp0 in Hy.
      assert (x = y) as ->
        by (apply (same_id_same_todo (records s));
            [by apply records_NoDup|done..]).
      by rewrite Hcy in Hcx. }
  destruct (redis_getAllTodos_records sMembers s' Hok Hc')
    as (l1&Hl1&_&Hp1).
  assert (Forall (λ todo, ¬ completed todo = true) l1) as Hnone.
  { apply Forall_forall. intros x Hx. rewrite Hp1, Hrec in Hx.
    apply list_elem_of_filter in Hx as [Hx _]. by destruct (completed x). }
  exists l, s'. split; [|split; [|split; [done|split]]].
  - unfold RedisService.clearCompleted. rewrite Hc; simpl.
    rewrite Hl0. fold l. by rewrite He.
  - unfold l. by rewrite Hp0.
  - unfold RedisService.getStats. rewrite Hc', Hl1; simpl. f_equal.
    unfold stats_of. rewrite (filter_none _ _ Hnone). simpl.
    rewrite (filter_all (λ todo, negb (completed todo) = true) l1).
    + rewrite Hp1, Hrec. done.
    + eapply Forall_impl; [exact Hnone|]. intros x. simpl.
      by destruct (completed x).
  - unfold RedisService.clearCompleted. rewrite Hc', Hl1; simpl.
    by rewrite (filter_none _ _ Hnone).
Qed.

(** *** The two backends do not mix *)

Lemma step_backend_apart sMembers sv op :
  if TodoService.useRedis sv
  then TodoService.inMemoryTodos (TodoService.step sMembers sv op)
       = TodoService.inMemoryTodos sv
  else TodoService.redisService (TodoService.step sMembers sv op)
       = TodoService.redisService sv.
Proof.
  destruct op as [todo|i updates now|i|]; simpl;
    unfold TodoService.createTodo, TodoService.updateTodo,
      TodoService.deleteTodo, TodoService.getAllTodos;
    destruct (TodoService.useRedis sv) eqn:Hu; simpl; try done.
  - by destruct (RedisService.createTodo todo _).
  - by destruct (RedisService.updateTodo i updates now _).
  - by destruct (findIndex_by_id i _).
  - by destruct (RedisService.deleteTodo i _).
  - by destruct (findIndex_by_id i _).
Qed.

(** X13.  The backend that was not selected is never written to: however
    many operations run, a service on the durable backend leaves the
    array as it was, and a service that fell back to the array leaves
    the server data as it was, so nothing done during a fallback
    reaches the server. *)
Theorem backends_do_not_mix sMembers ops sv :
  TodoService.useRedis (TodoService.run sMembers ops sv)
    = TodoService.useRedis sv ∧
  if TodoService.useRedis sv
  then TodoService.inMemoryTodos (TodoService.run sMembers ops sv)
       = TodoService.inMemoryTodos sv
  else TodoService.redisService (TodoService.run sMembers ops sv)
       = TodoService.redisService sv.
Proof.
  revert sv. induction ops as [|op ops IH]; intros sv.
  - simpl. by destruct (TodoService.useRedis sv).
  - change (TodoService.run sMembers (op :: ops) sv)
      with (TodoService.run sMembers ops (TodoService.step sMembers sv op)).
    destruct (IH (TodoService.step sMembers sv op)) as [Hu Hd].
    pose proof (step_backend_apart sMembers sv op) as Hs.
    rewrite step_useRedis in Hu, Hd. split; [done|].
    destruct (TodoService.useRedis sv); congruence.
Qed.

(** *** Stopping and starting again *)

Lemma createEach_isConnected todos s :
  RedisService.isConnected (RedisService.createEach todos s)
  = RedisService.isConnected s.
Proof.
  revert s. induction todos as [|todo todos IH]; intros s; [done|].
  simpl. unfold RedisService.createTodo.
  destruct (RedisService.isConnected s) eqn:Hc; simpl; [|done].
  by rewrite IH.
Qed.

Lemma initializeDefaultTodos_isConnected sMembers v1 v2 s1 s2 s :
  RedisService.isConnected
    (RedisService.initializeDefaultTodos sMembers v1 v2 s1 s2 s)
  = RedisService.isConnected s.
Proof.
  unfold RedisService.initializeDefaultTodos.
  destruct (RedisService.getAllTodos sMembers s); [|done].
  case_bool_decide; [|done]. apply createEach_isConnected.
Qed.

(** X14.  What a restart does to the durable data.  When the service is
    stopped by a signal and started again against the same reachable
    server, a dataset that is not empty comes back as it was, with no
    default Item added; a dataset that is empty is seeded again, the
    service being in the state of a first start: a user who deleted every
    Item finds the two default Items back. *)
Theorem restart_keeps_or_reseeds sMembers sv u1 u2 t1 t2 v1 v2 s1 s2 :
  sMembers_ok sMembers → TodoService.useRedis sv = true →
  let sv' :=
    TodoService.start sMembers true u1 u2 t1 t2 v1 v2 s1 s2
      (TodoService.redisService (TodoService.onSignal sv)) in
  TodoService.useRedis sv' = true ∧ available sv' ∧
  (dataset sv ≠ [] →
   dataset sv' = dataset sv ∧ ∀ i, stored sv' i = stored sv i) ∧
  (empty_dataset sv →
   sv' = TodoService.start sMembers true u1 u2 t1 t2 v1 v2 s1 s2
           RedisService.fresh).
Proof.
  intros Hok Hu.
  set (r := TodoService.redisService sv).
  set (c := {| RedisService.isConnected := true;
               RedisService.todos_all := RedisService.todos_all r;
               RedisService.hashes := RedisService.hashes r |}).
  assert (TodoService.redisService (TodoService.onSignal sv)
          = RedisService.disconnect r) as Hdown
    by (unfold TodoService.onSignal; by rewrite Hu).
  unfold TodoService.start, TodoService.onListen, RedisService.connect.
  rewrite Hdown. simpl. fold c.
  split; [done|]. split.
  { intros _. simpl. by rewrite initializeDefaultTodos_isConnected. }
  split.
  - intros Hdata. unfold dataset in Hdata. rewrite Hu in Hdata. fold r in Hdata.
    assert (RedisService.initializeDefaultTodos sMembers v1 v2 s1 s2 c = c)
      as ->.
    { unfold RedisService.initializeDefaultTodos.
      destruct (redis_getAllTodos_records sMembers c Hok eq_refl)
        as (l&->&_&Hp).
      case_bool_decide as Hlen; [|done].
      apply length_zero_iff_nil in Hlen. subst l.
      apply Permutation_nil_l in Hp. by destruct Hdata. }
    unfold dataset, stored. simpl. by rewrite Hu.
  - unfold empty_dataset. rewrite Hu. fold r. intros [Hidx Hh].
    unfold c. by rewrite Hidx, Hh.
Qed.

(** *** The writing handlers on an id that is held *)


(** ** The further properties at work on the example states *)

Lemma durable_empty_synced : well_synced durable_empty.
Proof.
  intros _ i. simpl. rewrite lookup_empty. split.
  - intros Hi. by apply elem_of_empty in Hi.
  - intros [x Hx]. discriminate Hx.
Defined.

Lemma disconnected_backend_throws_witness :
  TodoService.getAllTodos elements durable_down
    = (Throw "Redis not connected", durable_down) ∧
  Routes.delete_todo "v1" durable_down
    = (Routes.Failure 500 "Failed to delete todo", durable_down) ∧
  Routes.post_todos (λ x, x) (Some "A") "a" 1 durable_down
    = (Routes.Failure 500 "Failed to create todo", durable_down).
Proof.
  destruct (disconnected_backend_throws elements (λ x, x) durable_down
              "v1" todoA {| upd_text := None; upd_completed := None |} 1
              "A" "a")
    as (Hl&_&_&_&_&_&_&_&_&Hd&Hp); [reflexivity..|].
  split; [exact Hl|]. split; [exact Hd|].
  apply Hp. intros [H|H]; discriminate H.
Defined.

Lemma listing_count_matches_stats_witness :
  ∃ l sv',
    Routes.get_todos elements durable_service
      = (Routes.Todos 200 l (length l), sv') ∧
    TodoService.getStats elements durable_service = Ok (stats_of l) ∧
    total (stats_of l) = length l.
Proof.
  destruct durable_service_sound as (Hav&_&_).
  destruct (listing_count_matches_stats elements durable_service
              elements_ok Hav) as (l&sv'&Hl&Hst&_&Hn).
  exists l, sv'. exact (conj Hl (conj Hst Hn)).
Defined.

Lemma post_todos_grows_stats_witness :
  ∃ sv' st,
    Routes.post_todos (λ x, x) (Some "A") "a" 1 durable_service
      = (Routes.Json 201 todoA, sv') ∧
    TodoService.getStats elements durable_service = Ok st ∧
    TodoService.getStats elements sv'
      = Ok {| total := S (total st);
              stats_completed := stats_completed st;
              pending := S (pending st) |}.
Proof.
  destruct durable_service_sound as (Hav&Hwk&_).
  apply (post_todos_grows_stats elements (λ x, x) durable_service "A" "a" 1
           elements_ok Hav Hwk).
  - intros [H|H]; discriminate H.
  - discriminate.
  - reflexivity.
Defined.

Lemma put_unknown_id_404_witness :
  Routes.put_todo "zz" {| upd_text := Some "Z"; upd_completed := None |} 5
    durable_service
  = (Routes.Failure 404 "Todo not found", durable_service).
Proof.
  destruct durable_service_sound as (_&Hwk&_).
  apply (put_unknown_id_404 durable_service "zz"
           {| upd_text := Some "Z"; upd_completed := None |} 5 Hwk).
  - discriminate.
  - reflexivity.
Defined.

Lemma update_changes_one_item_witness :
  dataset (TodoService.updateTodo "v1"
             {| upd_text := Some "Hello"; upd_completed := None |} 30
             durable_service).2
  = retouched "v1" {| upd_text := Some "Hello"; upd_completed := None |} 30
      <$> dataset durable_service ∧
  TodoService.getStats elements
    (TodoService.updateTodo "v1"
       {| upd_text := Some "Hello"; upd_completed := None |} 30
       durable_service).2
  = TodoService.getStats elements durable_service.
Proof.
  destruct (update_changes_one_item elements durable_service "v1"
              {| upd_text := Some "Hello"; upd_completed := None |} 30
              elements_ok durable_service_sound) as (Hd&_&Hst).
  split; [exact Hd|]. apply Hst. reflexivity.
Defined.

Lemma delete_removes_one_id_witness :
  dataset (TodoService.deleteTodo "v1" durable_service).2
    ≡ₚ filter (λ todo, id todo ≠ "v1") (dataset durable_service) ∧
  TodoService.getTodoById "v2"
    (TodoService.deleteTodo "v1" durable_service).2
  = TodoService.getTodoById "v2" durable_service.
Proof.
  destruct (delete_removes_one_id durable_service "v1"
              durable_service_sound) as [Hd Hother].
  split; [exact Hd|]. apply Hother. discriminate.
Defined.

Lemma listing_complete_witness :
  ∃ l sv',
    TodoService.getAllTodos elements
      (TodoService.run elements
         [TodoService.Create todoA; TodoService.Create todoB]
         durable_empty) = (Ok l, sv') ∧
    read_back durable_empty todoA ∈ l.
Proof.
  destruct (listing_complete elements durable_empty
              [TodoService.Create todoA; TodoService.Create todoB]
              "a" (read_back durable_empty todoA)
              elements_ok durable_empty_synced) as [_ Hl].
  - vm_compute. reflexivity.
  - exact Hl.
Defined.

Lemma listing_read_only_witness :
  TodoService.getStats elements
    (TodoService.getAllTodos elements volatile_service).2
  = TodoService.getStats elements volatile_service ∧
  TodoService.getTodoById "u1"
    (TodoService.getAllTodos elements volatile_service).2
  = TodoService.getTodoById "u1" volatile_service.
Proof.
  assert (sound volatile_service) as Hsound
    by (apply (start_sound elements false);
        [apply map_Forall_empty|discriminate]).
  destruct (listing_read_only elements volatile_service
              (Array_sort byCreatedAtDesc
                 (TodoService.inMemoryTodos volatile_service))
              (TodoService.getAllTodos elements volatile_service).2
              elements_ok Hsound eq_refl) as (Hget&Hst&_&_).
  exact (conj Hst (Hget "u1")).
Defined.

Lemma clearCompleted_clears_witness :
  ∃ l s',
    RedisService.clearCompleted elements
      (TodoService.redisService durable_service) = (Ok l, s') ∧
    l ≡ₚ filter (λ todo, completed todo = true)
           (records (TodoService.redisService durable_service)) ∧
    RedisService.clearCompleted elements s' = (Ok [], s').
Proof.
  destruct durable_service_sound as (Hav&Hwk&_).
  destruct (clearCompleted_clears elements
              (TodoService.redisService durable_service)
              elements_ok (Hav eq_refl) (Hwk eq_refl))
    as (l&s'&Hc&Hl&_&_&Hagain).
  exists l, s'. exact (conj Hc (conj Hl Hagain)).
Defined.

Lemma restart_keeps_or_reseeds_witness :
  dataset (TodoService.start elements true "u3" "u4" 40 41 "v3" "v4" 50 51
             (TodoService.redisService durable_down))
  = dataset durable_service ∧
  TodoService.start elements true "u3" "u4" 40 41 "v3" "v4" 50 51
    (TodoService.redisService (TodoService.onSignal durable_empty))
  = TodoService.start elements true "u3" "u4" 40 41 "v3" "v4" 50 51
      RedisService.fresh.
Proof.
  split.
  - destruct (restart_keeps_or_reseeds elements durable_service
                "u3" "u4" 40 41 "v3" "v4" 50 51 elements_ok eq_refl)
      as (_&_&Hkeep&_).
    apply Hkeep. vm_compute. discriminate.
  - destruct (restart_keeps_or_reseeds elements durable_empty
                "u3" "u4" 40 41 "v3" "v4" 50 51 elements_ok eq_refl)
      as (_&_&_&Hseed).
    apply Hseed. split; reflexivity.
Defined.

